(** * Cosmic dust Monte Carlo simulator: a shallow embedding of simulation.py

    The Python module samples a population of dust particles and computes the
    geometry of their entry into the atmosphere.  The embedding follows the
    module function by function.

    Conventions of the embedding.
    - A Python or numpy float is a real number of [R]: rounding is not
      modelled, and the IEEE values inf and nan have no counterpart.  Where
      the source divides, the statements below carry the facts that keep the
      divisor away from zero.
    - A numpy array of shape (3,) is a [vec]; a 3x3 array is a [mat] (three
      rows).
    - numpy's [Generator] is not part of the module: it is an interface
      ([Generator]) whose laws record the documented contract of the draws.
      Methods that draw thread the generator state explicitly ([Rand]).
    - Methods that can raise return a [result]. *)

From Stdlib Require Import Reals Lra Lia Psatz List String ZArith Bool.
Import ListNotations.
Open Scope R_scope.

(** ** Three-dimensional vectors and 3x3 matrices (numpy arrays) *)

Module Vec.

Record vec : Type := mkvec { vx : R; vy : R; vz : R }.

Definition dot (a b : vec) : R := vx a * vx b + vy a * vy b + vz a * vz b.
Definition scale (k : R) (a : vec) : vec := mkvec (k * vx a) (k * vy a) (k * vz a).
Definition vadd (a b : vec) : vec := mkvec (vx a + vx b) (vy a + vy b) (vz a + vz b).
Definition vsub (a b : vec) : vec := mkvec (vx a - vx b) (vy a - vy b) (vz a - vz b).
Definition vneg (a : vec) : vec := mkvec (- vx a) (- vy a) (- vz a).
Definition vdiv (a : vec) (k : R) : vec := mkvec (vx a / k) (vy a / k) (vz a / k).
Definition cross (a b : vec) : vec :=
  mkvec (vy a * vz b - vz a * vy b) (vz a * vx b - vx a * vz b) (vx a * vy b - vy a * vx b).

(** np.linalg.norm *)
Definition norm (a : vec) : R := sqrt (dot a a).

Record mat : Type := mkmat { row0 : vec; row1 : vec; row2 : vec }.

Definition eye3 : mat := mkmat (mkvec 1 0 0) (mkvec 0 1 0) (mkvec 0 0 1).
Definition madd (m n : mat) : mat :=
  mkmat (vadd (row0 m) (row0 n)) (vadd (row1 m) (row1 n)) (vadd (row2 m) (row2 n)).
Definition mscale (k : R) (m : mat) : mat :=
  mkmat (scale k (row0 m)) (scale k (row1 m)) (scale k (row2 m)).
Definition col0 (m : mat) : vec := mkvec (vx (row0 m)) (vx (row1 m)) (vx (row2 m)).
Definition col1 (m : mat) : vec := mkvec (vy (row0 m)) (vy (row1 m)) (vy (row2 m)).
Definition col2 (m : mat) : vec := mkvec (vz (row0 m)) (vz (row1 m)) (vz (row2 m)).
(** R @ v *)
Definition mapply (m : mat) (v : vec) : vec :=
  mkvec (dot (row0 m) v) (dot (row1 m) v) (dot (row2 m) v).
(** np.dot(K, K) *)
Definition mmul (m n : mat) : mat :=
  let r := fun a => mkvec (dot a (col0 n)) (dot a (col1 n)) (dot a (col2 n)) in
  mkmat (r (row0 m)) (r (row1 m)) (r (row2 m)).

(** [a * k], the array on the left *)
Definition vmul (a : vec) (k : R) : vec := mkvec (vx a * k) (vy a * k) (vz a * k).

End Vec.
Import Vec.

(** ** Floats, Python values and exceptions *)

(** np.log10, for a positive argument. *)
Definition log10 (x : R) : R := ln x / ln 10.

(** [x ** y] for a base [x >= 0].  A zero base with a negative exponent
    makes Python's float power raise ZeroDivisionError, and a result out of
    the float range makes it raise OverflowError; neither is modelled, and
    the statements about [sample_radius] keep the draw positive where the
    exponent is negative. *)
Definition float_pow (x y : R) : R :=
  if Req_dec_T x 0 then (if Req_dec_T y 0 then 1 else 0) else Rpower x y.

(** np.clip(v, lo, hi) *)
Definition clip (v lo hi : R) : R := Rmin (Rmax v lo) hi.

(** np.arctan2 on finite arguments (signed zeros are not distinguished). *)
Definition atan2 (y x : R) : R :=
  if Rlt_dec 0 x then atan (y / x)
  else if Rlt_dec x 0 then
    (if Rle_dec 0 y then atan (y / x) + PI else atan (y / x) - PI)
  else if Rlt_dec 0 y then PI / 2
  else if Rlt_dec y 0 then - (PI / 2)
  else 0.

(** [a < b] as a Python bool. *)
Definition Rltb (a b : R) : bool := if Rlt_dec a b then true else false.

#[warnings="-register-all"]
Inductive pyval : Type :=
| PyStr (s : string)
| PyInt (n : Z)
| PyFloat (x : R)
| PyBool (b : bool)
| PyDict (d : list (string * pyval)).

Definition pydict : Type := list (string * pyval).

(** [d[k]] on a dictionary with distinct keys; [None] stands for KeyError. *)
Fixpoint dict_get (k : string) (d : pydict) : option pyval :=
  match d with
  | [] => None
  | (k', v) :: t => if String.eqb k k' then Some v else dict_get k t
  end.

(** sum(d.values()) for a dictionary of integer counts. *)
Fixpoint dict_int_sum (d : pydict) : Z :=
  match d with
  | [] => 0%Z
  | (_, PyInt n) :: t => (n + dict_int_sum t)%Z
  | _ :: t => dict_int_sum t
  end.

Inductive exn : Type :=
| ValueError (msg : string).

Inductive result (A : Type) : Type :=
| Ok (a : A)
| Raise (e : exn).
Arguments Ok {A} a.
Arguments Raise {A} e.

(** ** The population tables *)

Inductive source_family : Type := asteroidal | cometary | interstellar.
Inductive material : Type := silicate | carbonaceous | iron_nickel.

Definition source_name (s : source_family) : string :=
  match s with
  | asteroidal => "asteroidal"
  | cometary => "cometary"
  | interstellar => "interstellar"
  end.

Definition material_name (m : material) : string :=
  match m with
  | silicate => "silicate"
  | carbonaceous => "carbonaceous"
  | iron_nickel => "iron_nickel"
  end.

Definition source_eq_dec (a b : source_family) : {a = b} + {a <> b}.
Proof. decide equality. Defined.

Definition material_eq_dec (a b : material) : {a = b} + {a <> b}.
Proof. decide equality. Defined.

Record ParticleResult : Type := mkParticleResult {
  pr_source_family : source_family;
  pr_r : R;
  pr_m : R;
  pr_material : material;
  pr_rho : R;
  pr_v_inf : R;
  pr_v_entry : R;
  pr_incoming_unit_vector : vec;
  pr_impact_parameter_b : R;
  pr_entry_angle : R;
  pr_lat : R;
  pr_lon : R;
  pr_em_flag : bool;
  pr_high_energy_flag : bool;
  pr_selected_for_atmosphere : bool
}.

Definition R_E : R := 6371e3.
Definition h0 : R := 100e3.
Definition R_top : R := R_E + h0.
Definition G_grav : R := 6.67430e-11.
Definition M_E : R := 5.972e24.
Definition v_esc : R := sqrt (2 * G_grav * M_E / R_top).

Definition MATERIAL_DENSITIES (m : material) : R :=
  match m with
  | silicate => 3000.0
  | carbonaceous => 1500.0
  | iron_nickel => 7800.0
  end.

(** Dictionaries whose keys and values are listed keep their insertion order. *)
Definition SOURCE_FRACTIONS : list (source_family * R) :=
  [(asteroidal, 0.5); (cometary, 0.3); (interstellar, 0.2)].

Definition SOURCE_VELOCITY_RANGES (s : source_family) : R * R :=
  match s with
  | asteroidal => (11e3, 25e3)
  | cometary => (20e3, 70e3)
  | interstellar => (30e3, 100e3)
  end.

Definition SOURCE_MATERIAL_DISTRIBUTIONS (s : source_family) : list (material * R) :=
  match s with
  | asteroidal => [(silicate, 0.6); (iron_nickel, 0.4)]
  | cometary => [(carbonaceous, 0.8); (silicate, 0.2)]
  | interstellar => [(silicate, 0.5); (carbonaceous, 0.5)]
  end.

(** ** The random generator (numpy.random.Generator) *)

(** The draws of the module, each returning the value and the next state.
    [rng_choice p] is the index drawn by [choice(xs, p=p)]; [draws] is the
    position in the draw sequence. *)
Class Generator (G : Type) : Type := {
  default_rng : Z -> G;
  rng_random : G -> R * G;
  rng_uniform : R -> R -> G -> R * G;
  rng_normal : R -> R -> G -> R * G;
  rng_normal3 : G -> vec * G;
  rng_choice : list R -> G -> nat * G;
  draws : G -> nat;
  random_range : forall g, 0 <= fst (rng_random g) < 1;
  uniform_range : forall lo hi g, lo < hi -> lo <= fst (rng_uniform lo hi g) < hi;
  choice_range : forall p g, p <> [] -> (fst (rng_choice p g) < List.length p)%nat;
  random_draws : forall g, (draws g < draws (snd (rng_random g)))%nat;
  uniform_draws : forall lo hi g, (draws g < draws (snd (rng_uniform lo hi g)))%nat;
  normal_draws : forall mu sd g, (draws g < draws (snd (rng_normal mu sd g)))%nat;
  normal3_draws : forall g, (draws g < draws (snd (rng_normal3 g)))%nat;
  choice_draws : forall p g, (draws g < draws (snd (rng_choice p g)))%nat
}.

(** A generator that reads its draws off fixed cyclic tables, indexed by the
    position; it makes the interface inhabited and serves the closed examples. *)
Module CyclicGen.

Definition unit_draw (n : nat) : R := INR (n mod 4) / 4.

Lemma unit_draw_range (n : nat) : 0 <= unit_draw n < 1.
Proof.
  unfold unit_draw.
  assert (H : (n mod 4 < 4)%nat) by (apply Nat.mod_upper_bound; lia).
  apply lt_INR in H. pose proof (pos_INR (n mod 4)) as H0.
  replace (INR 4) with 4 in H by (simpl; lra).
  split; [apply Rmult_le_pos; lra | lra].
Qed.

Lemma uniform_table_range (lo hi : R) (g : nat) :
  lo < hi -> lo <= lo + (hi - lo) * unit_draw g < hi.
Proof. intros H. pose proof (unit_draw_range g). nra. Qed.

Lemma choice_table_range (p : list R) (g : nat) :
  p <> [] -> (g mod (List.length p) < List.length p)%nat.
Proof.
  intros H. apply Nat.mod_upper_bound. destruct p; [congruence | simpl; lia].
Qed.

#[global] Instance gen : Generator nat := {|
  default_rng := fun seed => Z.abs_nat seed;
  rng_random := fun g => (unit_draw g, S g);
  rng_uniform := fun lo hi g => (lo + (hi - lo) * unit_draw g, S g);
  rng_normal := fun mu sd g => (mu + sd * (2 * unit_draw g - 1), S g);
  rng_normal3 := fun g => (mkvec 1 (unit_draw g) (unit_draw (S g)), (g + 3)%nat);
  rng_choice := fun p g => ((g mod (List.length p))%nat, S g);
  draws := fun g => g;
  random_range := unit_draw_range;
  uniform_range := uniform_table_range;
  choice_range := choice_table_range;
  random_draws := fun g => Nat.lt_succ_diag_r g;
  uniform_draws := fun _ _ g => Nat.lt_succ_diag_r g;
  normal_draws := fun _ _ g => Nat.lt_succ_diag_r g;
  normal3_draws := fun g => Nat.lt_add_pos_r 3 g (Nat.lt_0_succ 2);
  choice_draws := fun _ g => Nat.lt_succ_diag_r g
|}.

End CyclicGen.

(** ** The simulator *)

Section Simulator.

Context {G : Type} `{Generator G}.

(** A method that draws: from the generator state to a value and the next state. *)
Definition Rand (A : Type) : Type := G -> A * G.

Definition ret {A : Type} (a : A) : Rand A := fun g => (a, g).

Definition bind {A B : Type} (c : Rand A) (k : A -> Rand B) : Rand B :=
  fun g => let (a, g') := c g in k a g'.

Notation "x <- c ;; k" := (bind c (fun x => k))
  (at level 61, c at next level, right associativity).
Notation "' pat <- c ;; k" := (bind c (fun x => match x with pat => k end))
  (at level 61, pat pattern, c at next level, right associativity).

Record Simulator : Type := mkSimulator {
  rng : G;
  results : list ParticleResult
}.

(** CosmicDustSimulator.__init__, for an integer seed. *)
Definition init (seed : Z) : Simulator :=
  mkSimulator (default_rng seed) [].

Definition sum_list (xs : list R) : R := fold_left Rplus xs 0.

(** np.array(probs) / np.sum(probs) *)
Definition normalize_probs (probs : list R) : list R :=
  map (fun p => p / sum_list probs) probs.

(** rng.choice(xs, p=probs); [d] stands for an index out of range, which
    [choice_range] excludes for a non-empty [probs]. *)
Definition choice {A : Type} (d : A) (xs : list A) (probs : list R) : Rand A :=
  i <- rng_choice probs ;; ret (nth i xs d).

Definition sample_source : Rand source_family :=
  let sources := map fst SOURCE_FRACTIONS in
  let probs := map snd SOURCE_FRACTIONS in
  let probs := normalize_probs probs in
  choice asteroidal sources probs.

Definition sample_radius (r_min r_max q : R) : Rand R :=
  if Req_dec_T q 1 then
    log_r <- rng_uniform (log10 r_min) (log10 r_max) ;;
    ret (Rpower 10 log_r)
  else
    u <- rng_uniform 0 1 ;;
    let log_r_min := log10 r_min in
    let log_r_max := log10 r_max in
    let log_r := log_r_min + (log_r_max - log_r_min) * (1 - float_pow u (1 / (1 - q))) in
    ret (Rpower 10 log_r).

Definition sample_material (source : source_family) : Rand material :=
  let dist := SOURCE_MATERIAL_DISTRIBUTIONS source in
  let materials := map fst dist in
  let probs := map snd dist in
  let probs := normalize_probs probs in
  choice silicate materials probs.

Definition sample_v_inf (source : source_family) : Rand R :=
  let '(v_min, v_max) := SOURCE_VELOCITY_RANGES source in
  let mean := (v_min + v_max) / 2 in
  let std := (v_max - v_min) / 4 in
  v <- rng_normal mean std ;;
  let v := clip v v_min v_max in
  ret v.

Definition sample_direction (source : source_family) : Rand vec :=
  match source with
  | interstellar =>
      u <- rng_normal3 ;;
      let u := vdiv u (norm u) in
      ret u
  | _ =>
      theta <- rng_uniform 0 (2 * PI) ;;
      cos_i <- rng_uniform 0.5 1.0 ;;
      let sin_i := sqrt (1 - cos_i ^ 2) in
      let phi := acos cos_i in
      let u := mkvec (sin_i * cos theta) (sin_i * sin theta) cos_i in
      x <- rng_random ;;
      let u := if Rlt_dec x 0.5 then mkvec (vx u) (vy u) (vz u * -1) else u in
      let u := vdiv u (norm u) in
      ret u
  end.

(** The rotation matrix of the Rodrigues formula, about axis [u] by [angle]. *)
Definition rodrigues (u : vec) (angle : R) : mat :=
  let cos_a := cos angle in
  let sin_a := sin angle in
  let K := mkmat (mkvec 0 (- vz u) (vy u))
                 (mkvec (vz u) 0 (- vx u))
                 (mkvec (- vy u) (vx u) 0) in
  madd (madd eye3 (mscale sin_a K)) (mscale (1 - cos_a) (mmul K K)).

Definition sample_perp_unit_vector (u : vec) : Rand vec :=
  let v := if Rlt_dec (Rabs (vx u)) 0.9 then mkvec 1 0 0 else mkvec 0 1 0 in
  let v_perp := vsub v (scale (dot v u) u) in
  let v_perp := vdiv v_perp (norm v_perp) in
  angle <- rng_uniform 0 (2 * PI) ;;
  let Rot := rodrigues u angle in
  let v_rotated := mapply Rot v_perp in
  ret (vdiv v_rotated (norm v_rotated)).

(** Returns the position, the latitude and the longitude.  [b_hat] is
    computed, drawing when [b_vec] is zero, and not used afterwards. *)
Definition compute_intersection_point (u b_vec : vec) (Rad : R) : Rand (vec * R * R) :=
  b_hat <- (if Rlt_dec 0 (norm b_vec) then ret (vdiv b_vec (norm b_vec))
            else sample_perp_unit_vector u) ;;
  let t := if Rlt_dec (norm b_vec) Rad then sqrt (Rad ^ 2 - norm b_vec ^ 2) else 0 in
  let intersection := vadd (vmul (vneg u) t) b_vec in
  let intersection := vmul (vdiv intersection (norm intersection)) Rad in
  let lat := asin (vz intersection / Rad) * 180 / PI in
  let lon := atan2 (vy intersection) (vx intersection) * 180 / PI in
  ret (intersection, lat, lon).

Definition compute_entry_angle (v_entry_vec position : vec) (Rad : R) : R :=
  let normal := vdiv position (norm position) in
  let v_hat := vdiv v_entry_vec (norm v_entry_vec) in
  let cos_angle := - dot v_hat normal in
  let angle := acos (clip cos_angle (-1) 1) in
  angle * 180 / PI.

Definition simulate_particle (r_min r_max q : R) : Rand ParticleResult :=
  source <- sample_source ;;
  r <- sample_radius r_min r_max q ;;
  material <- sample_material source ;;
  let rho := MATERIAL_DENSITIES material in
  let m := (4 / 3) * PI * r ^ 3 * rho in
  v_inf <- sample_v_inf source ;;
  u <- sample_direction source ;;
  let bmax := R_top * sqrt (1 + (v_esc ^ 2) / (v_inf ^ 2)) in
  b_hat <- sample_perp_unit_vector u ;;
  x <- rng_uniform 0 1 ;;
  let b_mag := sqrt x * bmax in
  let b_vec := scale b_mag b_hat in
  let v_entry_mag := sqrt (v_inf ^ 2 + v_esc ^ 2) in
  let v_entry_vec := vmul (vneg u) v_entry_mag in
  '(position, lat, lon) <- compute_intersection_point u b_vec R_top ;;
  let entry_angle := compute_entry_angle v_entry_vec position R_top in
  let em_flag := Rltb r 0.5e-6 in
  let high_energy_flag := Rltb 50e3 v_entry_mag in
  let selected_for_atmosphere := true in
  ret (mkParticleResult source r m material rho v_inf v_entry_mag v_entry_vec
         b_mag entry_angle lat lon em_flag high_energy_flag selected_for_atmosphere).

(** The body of the loop of [run_simulation], [n] iterations appending to
    [acc]; the progress line printed every 10000 particles is not modelled. *)
Fixpoint simulate_loop (n : nat) (r_min r_max q : R) (acc : list ParticleResult)
  : Rand (list ParticleResult) :=
  match n with
  | O => ret acc
  | S n' =>
      particle <- simulate_particle r_min r_max q ;;
      simulate_loop n' r_min r_max q (acc ++ [particle])
  end.

(** [range(N)] is empty for [N <= 0].  The exceptions that numpy or Python
    arithmetic raise inside the loop (a reversed or non-finite range passed
    to uniform in the branch [q == 1], zero to a negative power) are not
    modelled: the results of the program are among those of the model, and
    the model also returns where the program raises. *)
Definition run_simulation (N : Z) (r_min r_max q : R) (self : Simulator)
  : result (list ParticleResult * Simulator) :=
  let (rs, g) := simulate_loop (Z.to_nat N) r_min r_max q [] (rng self) in
  Ok (rs, mkSimulator g rs).

(** np.min, np.max, np.mean and np.median of a non-empty list ([0] stands for
    the empty list, which [get_diagnostics] never passes). *)
Definition list_min (xs : list R) : R :=
  match xs with [] => 0 | x :: t => fold_left Rmin t x end.

Definition list_max (xs : list R) : R :=
  match xs with [] => 0 | x :: t => fold_left Rmax t x end.

Definition mean (xs : list R) : R := sum_list xs / INR (List.length xs).

Fixpoint insert_sorted (x : R) (l : list R) : list R :=
  match l with
  | [] => [x]
  | y :: t => if Rle_dec x y then x :: l else y :: insert_sorted x t
  end.

Definition sort_list (xs : list R) : list R := fold_right insert_sorted [] xs.

Definition median (xs : list R) : R :=
  let s := sort_list xs in
  let n := List.length s in
  if Nat.even n then (nth (n / 2 - 1) s 0 + nth (n / 2) s 0) / 2
  else nth (n / 2) s 0.

Definition stats (xs : list R) : pyval :=
  PyDict [("min", PyFloat (list_min xs)); ("max", PyFloat (list_max xs));
          ("mean", PyFloat (mean xs)); ("median", PyFloat (median xs))]%string.

(** {x: xs.count(x) for x in set(xs)}, the keys in order of first occurrence
    (Python leaves the order of a set open). *)
Definition counts {A : Type} (eq_dec : forall a b : A, {a = b} + {a <> b})
    (name : A -> string) (xs : list A) : pydict :=
  map (fun x => (name x, PyInt (Z.of_nat (count_occ eq_dec xs x)))) (nodup eq_dec xs).

(** An empty result list gives the empty dictionary. *)
Definition get_diagnostics (self : Simulator) : result (pydict * Simulator) :=
  match results self with
  | [] => Ok ([], self)
  | _ =>
      let results_array := results self in
      let radii := map pr_r results_array in
      let v_inf_values := map pr_v_inf results_array in
      let v_entry_values := map pr_v_entry results_array in
      let sources := map pr_source_family results_array in
      let source_counts := counts source_eq_dec source_name sources in
      let materials := map pr_material results_array in
      let material_counts := counts material_eq_dec material_name materials in
      let em_count := List.length (filter pr_em_flag results_array) in
      let high_energy_count := List.length (filter pr_high_energy_flag results_array) in
      let entry_angles := map pr_entry_angle results_array in
      let total_mass := sum_list (map pr_m results_array) in
      Ok ([("total_particles", PyInt (Z.of_nat (List.length (results self))));
           ("size_stats", stats radii);
           ("v_inf_stats", stats v_inf_values);
           ("v_entry_stats", stats v_entry_values);
           ("source_distribution", PyDict source_counts);
           ("material_distribution", PyDict material_counts);
           ("em_particles", PyInt (Z.of_nat em_count));
           ("high_energy_particles", PyInt (Z.of_nat high_energy_count));
           ("entry_angle_stats", stats entry_angles);
           ("total_mass_kg", PyFloat total_mass)]%string, self)
  end.

Definition csv_fieldnames : list string :=
  ["source_family"; "r_m"; "m_kg"; "material"; "rho_kg_m3";
   "v_inf_m_s"; "v_entry_m_s"; "incoming_vector_x"; "incoming_vector_y";
   "incoming_vector_z"; "impact_parameter_b_m"; "entry_angle_deg"; "lat_deg";
   "lon_deg"; "em_flag"; "high_energy_flag"; "selected_for_atmosphere"]%string.

Definition csv_row (r : ParticleResult) : list pyval :=
  [PyStr (source_name (pr_source_family r)); PyFloat (pr_r r); PyFloat (pr_m r);
   PyStr (material_name (pr_material r)); PyFloat (pr_rho r);
   PyFloat (pr_v_inf r); PyFloat (pr_v_entry r);
   PyFloat (vx (pr_incoming_unit_vector r));
   PyFloat (vy (pr_incoming_unit_vector r));
   PyFloat (vz (pr_incoming_unit_vector r));
   PyFloat (pr_impact_parameter_b r); PyFloat (pr_entry_angle r);
   PyFloat (pr_lat r); PyFloat (pr_lon r); PyBool (pr_em_flag r);
   PyBool (pr_high_energy_flag r); PyBool (pr_selected_for_atmosphere r)].

(** What [export_csv] leaves in the file: the header and one row per result. *)
Record csv_file : Type := mkcsv { csv_header : list string; csv_rows : list (list pyval) }.

(** Returns the file name; the second component is the content written to
    that file. *)
Definition export_csv (filename : string) (self : Simulator)
  : result (string * csv_file * Simulator) :=
  match results self with
  | [] => Raise (ValueError "No simulation results to export")
  | _ => Ok (filename, mkcsv csv_fieldnames (map csv_row (results self)), self)
  end.

(** ** Predicates on draws *)

(** [advances c]: the draw position never moves back through [c];
    [consumes c]: it moves forward. *)
Definition advances {A : Type} (c : Rand A) : Prop :=
  forall g, (draws g <= draws (snd (c g)))%nat.

Definition consumes {A : Type} (c : Rand A) : Prop :=
  forall g, (draws g < draws (snd (c g)))%nat.

(** The isotropic branch of [sample_direction] divides the draw of
    normal(size=3) by its norm: the draw has to be away from the zero vector. *)
Definition nondegenerate_normal3 : Prop :=
  forall g : G, norm (fst (rng_normal3 g)) <> 0.

End Simulator.

(** A simulator seeded like [init 7] that already holds a result. *)
Definition seeded_with_history : @Simulator nat :=
  mkSimulator (default_rng 7)
    [mkParticleResult asteroidal 1e-6 1e-14 silicate 3000 12e3 16e3 (mkvec 0 0 (-16e3))
       0 180 0 0 false false true].

(** * Properties *)

(** ** Vectors *)

Module VecFacts.

Lemma vec_eq (a b : vec) : vx a = vx b -> vy a = vy b -> vz a = vz b -> a = b.
Proof. destruct a, b; simpl; intros; subst; reflexivity. Qed.

Lemma dot_self_nonneg (a : vec) : 0 <= dot a a.
Proof. unfold dot. nra. Qed.

Lemma norm_nonneg (a : vec) : 0 <= norm a.
Proof. apply sqrt_pos. Qed.

Lemma norm_sqr (a : vec) : norm a * norm a = dot a a.
Proof. unfold norm. apply sqrt_sqrt, dot_self_nonneg. Qed.

Lemma norm_unit_iff (a : vec) : norm a = 1 <-> dot a a = 1.
Proof.
  split; intros H.
  - rewrite <- norm_sqr, H. lra.
  - unfold norm. rewrite H. apply sqrt_1.
Qed.

Lemma norm_eq_of_sqr (a : vec) (k : R) : 0 <= k -> dot a a = k * k -> norm a = k.
Proof. intros Hk H. unfold norm. rewrite H. apply sqrt_square, Hk. Qed.

Lemma norm_pos_of_dot (a : vec) : 0 < dot a a -> 0 < norm a.
Proof. intros H. unfold norm. apply sqrt_lt_R0, H. Qed.

Lemma dot_scale_l (k : R) (a b : vec) : dot (scale k a) b = k * dot a b.
Proof. unfold dot, scale; simpl. ring. Qed.

Lemma dot_scale_r (k : R) (a b : vec) : dot a (scale k b) = k * dot a b.
Proof. unfold dot, scale; simpl. ring. Qed.

Lemma dot_comm (a b : vec) : dot a b = dot b a.
Proof. unfold dot. ring. Qed.

Lemma vdiv_scale (a : vec) (k : R) : vdiv a k = scale (/ k) a.
Proof. apply vec_eq; simpl; unfold Rdiv; ring. Qed.

Lemma vdiv_1 (a : vec) : vdiv a 1 = a.
Proof. apply vec_eq; simpl; field. Qed.

Lemma norm_scale (k : R) (a : vec) : norm (scale k a) = Rabs k * norm a.
Proof.
  unfold norm. rewrite dot_scale_l, dot_scale_r.
  replace (k * (k * dot a a)) with (k² * dot a a) by (unfold Rsqr; ring).
  rewrite sqrt_mult by (try apply Rle_0_sqr; apply dot_self_nonneg).
  rewrite sqrt_Rsqr_abs. reflexivity.
Qed.

(** Dividing a vector by its own non-zero norm gives a unit vector. *)
Lemma norm_normalize (a : vec) : norm a <> 0 -> norm (vdiv a (norm a)) = 1.
Proof.
  intros H. rewrite vdiv_scale, norm_scale.
  pose proof (norm_nonneg a) as Hn.
  rewrite Rabs_inv, (Rabs_pos_eq _ Hn). field. exact H.
Qed.


Lemma norm_vmul (a : vec) (k : R) : norm (vmul a k) = norm a * Rabs k.
Proof.
  replace (vmul a k) with (scale k a) by (apply vec_eq; simpl; ring).
  rewrite norm_scale. ring.
Qed.

Lemma norm_vneg (a : vec) : norm (vneg a) = norm a.
Proof. unfold norm. f_equal. unfold dot; simpl. ring. Qed.

Lemma dot_cross_l (a b : vec) : dot a (cross a b) = 0.
Proof. unfold dot, cross; simpl. ring. Qed.

Lemma dot_cross_r (a b : vec) : dot b (cross a b) = 0.
Proof. unfold dot, cross; simpl. ring. Qed.

(** The identity of Lagrange. *)
Lemma cross_sqr (a b : vec) :
  dot (cross a b) (cross a b) = dot a a * dot b b - dot a b * dot a b.
Proof. unfold dot, cross; simpl. ring. Qed.

End VecFacts.
Import VecFacts.

(** ** The perpendicular unit vector *)

Section Perpendicular.

Context {G : Type} `{Generator G}.

(** On a vector [p] perpendicular to the unit axis [u], the matrix of
    [rodrigues] acts as the plane rotation [cos a * p + sin a * (u x p)]. *)
Lemma rodrigues_plane (u p : vec) (a : R) :
  dot u u = 1 -> dot u p = 0 ->
  mapply (rodrigues u a) p = vadd (scale (cos a) p) (scale (sin a) (cross u p)).
Proof.
  intros Hu Hp.
  apply vec_eq; unfold rodrigues, mapply, madd, mscale, mmul, eye3, col0, col1,
    col2, vadd, scale, cross; simpl.
  - transitivity (cos a * vx p + sin a * (vy u * vz p - vz u * vy p)
                  + (1 - cos a) * (vx u * dot u p - vx p * (dot u u - 1))).
    + unfold dot; simpl; ring.
    + rewrite Hu, Hp. ring.
  - transitivity (cos a * vy p + sin a * (vz u * vx p - vx u * vz p)
                  + (1 - cos a) * (vy u * dot u p - vy p * (dot u u - 1))).
    + unfold dot; simpl; ring.
    + rewrite Hu, Hp. ring.
  - transitivity (cos a * vz p + sin a * (vx u * vy p - vy u * vx p)
                  + (1 - cos a) * (vz u * dot u p - vz p * (dot u u - 1))).
    + unfold dot; simpl; ring.
    + rewrite Hu, Hp. ring.
Qed.

Lemma rodrigues_unit (u p : vec) (a : R) :
  dot u u = 1 -> dot u p = 0 -> dot p p = 1 ->
  dot (mapply (rodrigues u a) p) (mapply (rodrigues u a) p) = 1.
Proof.
  intros Hu Hp Hpp. rewrite rodrigues_plane by assumption.
  pose proof (cross_sqr u p) as Hc. rewrite Hu, Hp, Hpp in Hc.
  pose proof (dot_cross_r u p) as Hr.
  pose proof (sin2_cos2 a) as Hsc. unfold Rsqr in Hsc.
  transitivity ((cos a * cos a) * dot p p
                + (sin a * sin a) * dot (cross u p) (cross u p)
                + 2 * (cos a * sin a) * dot p (cross u p)).
  - unfold dot, vadd, scale; simpl. ring.
  - rewrite Hpp, Hc, Hr. lra.
Qed.

Lemma rodrigues_perp (u p : vec) (a : R) :
  dot u u = 1 -> dot u p = 0 ->
  dot u (mapply (rodrigues u a) p) = 0.
Proof.
  intros Hu Hp. rewrite rodrigues_plane by assumption.
  pose proof (dot_cross_l u p) as Hl.
  transitivity (cos a * dot u p + sin a * dot u (cross u p)).
  - unfold dot, vadd, scale; simpl. ring.
  - rewrite Hp, Hl. ring.
Qed.

(** The seed axis chosen by [sample_perp_unit_vector] is never parallel to
    a unit [u]: its component orthogonal to [u] is not zero. *)
Lemma seed_axis_residual (u : vec) :
  dot u u = 1 ->
  let v := if Rlt_dec (Rabs (vx u)) 0.9 then mkvec 1 0 0 else mkvec 0 1 0 in
  0 < dot (vsub v (scale (dot v u) u)) (vsub v (scale (dot v u) u)).
Proof.
  intros Hu. cbv zeta. destruct (Rlt_dec (Rabs (vx u)) 0.9) as [Hx | Hx].
  - apply Rabs_def2 in Hx.
    replace (dot _ _) with (1 - vx u * vx u * (2 - dot u u))
      by (unfold dot, vsub, scale; simpl; ring).
    rewrite Hu. nra.
  - apply Rnot_lt_le in Hx.
    assert (Hx2 : 0.81 <= vx u * vx u).
    { unfold Rabs in Hx. destruct (Rcase_abs (vx u)); nra. }
    replace (dot _ _) with (1 - vy u * vy u * (2 - dot u u))
      by (unfold dot, vsub, scale; simpl; ring).
    rewrite Hu. unfold dot in Hu. nra.
Qed.

(** The normalised Gram-Schmidt residual is a unit vector perpendicular to [u]. *)
Lemma gram_schmidt (u v : vec) :
  dot u u = 1 ->
  let w := vsub v (scale (dot v u) u) in
  0 < dot w w ->
  dot u (vdiv w (norm w)) = 0 /\ dot (vdiv w (norm w)) (vdiv w (norm w)) = 1.
Proof.
  intros Hu w Hw.
  assert (Hn : norm w <> 0) by (apply Rgt_not_eq, norm_pos_of_dot, Hw).
  split.
  - rewrite vdiv_scale, dot_scale_r.
    replace (dot u w) with (dot v u * (1 - dot u u))
      by (unfold w, dot, vsub, scale; simpl; ring).
    rewrite Hu. ring.
  - apply norm_unit_iff, norm_normalize, Hn.
Qed.

Lemma sample_perp_unit_vector_spec (u : vec) (g : G) :
  norm u = 1 ->
  dot (fst (sample_perp_unit_vector u g)) u = 0 /\
  norm (fst (sample_perp_unit_vector u g)) = 1.
Proof.
  intros Hu. apply norm_unit_iff in Hu.
  unfold sample_perp_unit_vector, bind, ret.
  destruct (rng_uniform 0 (2 * PI) g) as [angle g']. cbn [fst].
  set (v := if Rlt_dec (Rabs (vx u)) 0.9 then mkvec 1 0 0 else mkvec 0 1 0).
  pose proof (seed_axis_residual u Hu) as Hres. cbv zeta in Hres. fold v in Hres.
  destruct (gram_schmidt u v Hu Hres) as [Hperp Hunit].
  set (p := vdiv (vsub v (scale (dot v u) u)) (norm (vsub v (scale (dot v u) u)))) in *.
  pose proof (rodrigues_unit u p angle Hu Hperp Hunit) as Hr1.
  pose proof (rodrigues_perp u p angle Hu Hperp) as Hr2.
  apply norm_unit_iff in Hr1. rewrite Hr1, vdiv_1.
  split; [rewrite dot_comm; exact Hr2 | exact Hr1].
Qed.

End Perpendicular.

(** ** Every particle of a run *)

Section Runs.

Context {G : Type} `{Generator G}.

(** One step through a method that draws: name the value and the next state. *)
Ltac rand_step :=
  match goal with
  | |- context [match ?c with pair _ _ => _ end] =>
      let E := fresh "E" in destruct c eqn:E
  end.

Ltac rand_steps := unfold bind, ret; repeat rand_step; cbn [fst snd].

Lemma simulate_loop_length (n : nat) (r_min r_max q : R)
    (acc : list ParticleResult) (g : G) :
  List.length (fst (simulate_loop n r_min r_max q acc g)) = (List.length acc + n)%nat.
Proof.
  revert acc g. induction n as [| n IH]; intros acc g; simpl.
  - unfold ret; simpl. lia.
  - unfold bind. destruct (simulate_particle r_min r_max q g) as [p g'].
    rewrite IH, length_app. simpl. lia.
Qed.

(** A property of every particle that [simulate_particle] can return holds of
    every element of the list the loop builds. *)
Lemma simulate_loop_Forall (P : ParticleResult -> Prop) (r_min r_max q : R) :
  (forall g, P (fst (simulate_particle r_min r_max q g))) ->
  forall n acc g, Forall P acc -> Forall P (fst (simulate_loop n r_min r_max q acc g)).
Proof.
  intros HP. induction n as [| n IH]; intros acc g Hacc; simpl.
  - exact Hacc.
  - unfold bind. destruct (simulate_particle r_min r_max q g) as [p g'] eqn:E.
    apply IH. apply Forall_app. split; [exact Hacc |].
    constructor; [| constructor]. specialize (HP g). rewrite E in HP. exact HP.
Qed.

Lemma advances_ret {A : Type} (a : A) : advances (ret a).
Proof. intros g. unfold ret; simpl. lia. Qed.

Lemma advances_bind {A B : Type} (c : Rand A) (k : A -> Rand B) :
  advances c -> (forall a, advances (k a)) -> advances (bind c k).
Proof.
  intros Hc Hk g. unfold bind. specialize (Hc g).
  destruct (c g) as [a g']. specialize (Hk a g'). simpl in Hc. lia.
Qed.

Lemma consumes_bind {A B : Type} (c : Rand A) (k : A -> Rand B) :
  consumes c -> (forall a, advances (k a)) -> consumes (bind c k).
Proof.
  intros Hc Hk g. unfold bind. specialize (Hc g).
  destruct (c g) as [a g']. specialize (Hk a g'). simpl in Hc. lia.
Qed.

Lemma consumes_advances {A : Type} (c : Rand A) : consumes c -> advances c.
Proof. intros Hc g. specialize (Hc g). lia. Qed.

Lemma consumes_uniform (lo hi : R) : consumes (rng_uniform lo hi).
Proof. intros g. apply uniform_draws. Qed.

Lemma consumes_random : consumes rng_random.
Proof. intros g. apply random_draws. Qed.

Lemma consumes_normal (mu sd : R) : consumes (rng_normal mu sd).
Proof. intros g. apply normal_draws. Qed.

Lemma consumes_normal3 : consumes rng_normal3.
Proof. intros g. apply normal3_draws. Qed.

Lemma consumes_choice (p : list R) : consumes (rng_choice p).
Proof. intros g. apply choice_draws. Qed.

Ltac advance :=
  repeat first
    [ apply advances_ret
    | apply consumes_advances;
      first [ apply consumes_uniform | apply consumes_random | apply consumes_normal
            | apply consumes_normal3 | apply consumes_choice ]
    | apply advances_bind; [| intros ]
    | match goal with
      | |- advances (if ?c then _ else _) => destruct c
      | |- advances (match ?x with _ => _ end) => destruct x
      end ].

Lemma advances_sample_perp_unit_vector (u : vec) : advances (sample_perp_unit_vector u).
Proof. unfold sample_perp_unit_vector. advance. Qed.

Lemma advances_compute_intersection_point (u b_vec : vec) (Rad : R) :
  advances (compute_intersection_point u b_vec Rad).
Proof.
  unfold compute_intersection_point. apply advances_bind; [| intros; advance].
  destruct (Rlt_dec 0 (norm b_vec)); [advance | apply advances_sample_perp_unit_vector].
Qed.

Lemma consumes_simulate_particle (r_min r_max q : R) :
  consumes (simulate_particle r_min r_max q).
Proof.
  unfold simulate_particle. apply consumes_bind.
  - unfold sample_source, choice. apply consumes_bind; [apply consumes_choice |].
    intros; advance.
  - intros source. apply advances_bind.
    { unfold sample_radius. advance. }
    intros r. apply advances_bind.
    { unfold sample_material, choice. advance. }
    intros material. apply advances_bind.
    { unfold sample_v_inf. destruct (SOURCE_VELOCITY_RANGES source). advance. }
    intros v_inf. apply advances_bind.
    { unfold sample_direction. destruct source; advance. }
    intros u. apply advances_bind; [apply advances_sample_perp_unit_vector |].
    intros b_hat. apply advances_bind; [advance |].
    intros x. apply advances_bind; [apply advances_compute_intersection_point |].
    intros [[position lat] lon]. advance.
Qed.

Lemma simulate_loop_advances (n : nat) (r_min r_max q : R) (acc : list ParticleResult) :
  advances (simulate_loop n r_min r_max q acc).
Proof.
  revert acc. induction n as [| n IH]; intros acc; simpl.
  - apply advances_ret.
  - apply advances_bind; [apply consumes_advances, consumes_simulate_particle |].
    intros p. apply IH.
Qed.

Lemma simulate_loop_consumes (n : nat) (r_min r_max q : R) (acc : list ParticleResult) :
  consumes (simulate_loop (S n) r_min r_max q acc).
Proof.
  simpl. apply consumes_bind; [apply consumes_simulate_particle |].
  intros p. apply simulate_loop_advances.
Qed.

Lemma run_simulation_ok (N : Z) (r_min r_max q : R) (self : Simulator) :
  exists rs g,
    run_simulation N r_min r_max q self = Ok (rs, mkSimulator g rs) /\
    (rs, g) = simulate_loop (Z.to_nat N) r_min r_max q [] (rng self) /\
    List.length rs = Z.to_nat N.
Proof.
  unfold run_simulation.
  pose proof (simulate_loop_length (Z.to_nat N) r_min r_max q [] (rng self)) as Hl.
  destruct (simulate_loop (Z.to_nat N) r_min r_max q [] (rng self)) as [rs g].
  exists rs, g. simpl in Hl. repeat split. exact Hl.
Qed.

(** What holds of every particle [simulate_particle] returns holds of every
    result of a run, and a run always returns. *)
Lemma run_simulation_Forall (P : ParticleResult -> Prop) (N : Z) (r_min r_max q : R)
    (self : Simulator) :
  (forall g, P (fst (simulate_particle r_min r_max q g))) ->
  exists rs self',
    run_simulation N r_min r_max q self = Ok (rs, self') /\
    results self' = rs /\
    List.length rs = Z.to_nat N /\
    Forall P rs.
Proof.
  intros HP.
  destruct (run_simulation_ok N r_min r_max q self) as (rs & g & Hrun & Hloop & Hlen).
  exists rs, (mkSimulator g rs). repeat split; try assumption.
  replace rs with (fst (simulate_loop (Z.to_nat N) r_min r_max q [] (rng self)))
    by (rewrite <- Hloop; reflexivity).
  apply simulate_loop_Forall; [exact HP | constructor].
Qed.

Lemma simulate_particle_v_entry (r_min r_max q : R) (g : G) :
  let p := fst (simulate_particle r_min r_max q g) in
  pr_v_entry p = sqrt (pr_v_inf p ^ 2 + v_esc ^ 2).
Proof. unfold simulate_particle. rand_steps. reflexivity. Qed.

Lemma simulate_particle_mass (r_min r_max q : R) (g : G) :
  let p := fst (simulate_particle r_min r_max q g) in
  pr_m p = (4 / 3) * PI * pr_r p ^ 3 * pr_rho p /\
  pr_rho p = MATERIAL_DENSITIES (pr_material p).
Proof. unfold simulate_particle. rand_steps. split; reflexivity. Qed.

(** The ecliptic vector of [sample_direction], before it is normalised. *)
Lemma ecliptic_unit (theta cos_i z : R) :
  0.5 <= cos_i < 1.0 -> z * z = cos_i * cos_i ->
  norm (mkvec (sqrt (1 - cos_i ^ 2) * cos theta) (sqrt (1 - cos_i ^ 2) * sin theta) z) = 1.
Proof.
  intros Hc Hz.
  assert (Hs : sqrt (1 - cos_i ^ 2) * sqrt (1 - cos_i ^ 2) = 1 - cos_i ^ 2)
    by (apply sqrt_sqrt; nra).
  pose proof (sin2_cos2 theta) as Hsc. unfold Rsqr in Hsc.
  set (si := sqrt (1 - cos_i ^ 2)) in *.
  apply norm_unit_iff. unfold dot; simpl.
  replace (si * cos theta * (si * cos theta) + si * sin theta * (si * sin theta))
    with (si * si * (sin theta * sin theta + cos theta * cos theta)) by ring.
  rewrite Hsc, Hs, Hz. ring.
Qed.

Lemma sample_direction_unit (source : source_family) (g : G) :
  nondegenerate_normal3 (G := G) ->
  norm (fst (sample_direction source g)) = 1.
Proof.
  intros Hnd.
  destruct source; unfold sample_direction, bind, ret.
  3: { specialize (Hnd g). destruct (rng_normal3 g) as [u g1]. cbn [fst] in *.
       apply norm_normalize, Hnd. }
  all: destruct (rng_uniform 0 (2 * PI) g) as [theta g1];
    pose proof (uniform_range 0.5 1.0 g1 ltac:(lra)) as Hc;
    destruct (rng_uniform 0.5 1.0 g1) as [cos_i g2]; cbn [fst] in Hc;
    destruct (rng_random g2) as [x g3]; cbn [fst];
    destruct (Rlt_dec x 0.5); cbn [vx vy vz];
    [ rewrite (ecliptic_unit theta cos_i (cos_i * -1) Hc) by ring
    | rewrite (ecliptic_unit theta cos_i cos_i Hc) by ring ];
    rewrite vdiv_1; apply ecliptic_unit; solve [assumption | ring].
Qed.

(** *** The intersection point *)

Lemma abs_vz_le_norm (a : vec) : Rabs (vz a) <= norm a.
Proof.
  rewrite <- sqrt_Rsqr_abs. unfold norm. apply sqrt_le_1_alt.
  unfold Rsqr, dot. nra.
Qed.

Lemma norm_rescale (a : vec) (k : R) :
  norm a <> 0 -> 0 <= k -> norm (vmul (vdiv a (norm a)) k) = k.
Proof.
  intros Ha Hk. rewrite norm_vmul, norm_normalize by exact Ha.
  rewrite Rabs_pos_eq by exact Hk. ring.
Qed.

(** The point [-u * t + b_vec] before it is rescaled: its length is [Rad]
    when [b_vec] is shorter than [Rad], and it is [b_vec] otherwise. *)
Lemma intersection_raw (u b_vec : vec) (Rad : R) :
  norm u = 1 -> dot b_vec u = 0 -> 0 < Rad ->
  let t := if Rlt_dec (norm b_vec) Rad then sqrt (Rad ^ 2 - norm b_vec ^ 2) else 0 in
  let raw := vadd (vmul (vneg u) t) b_vec in
  0 <= t /\ dot u raw = - t /\ 0 < norm raw /\
  (norm b_vec < Rad -> norm raw = Rad) /\
  (Rad <= norm b_vec -> raw = b_vec).
Proof.
  intros Hu Hb HR t raw. apply norm_unit_iff in Hu.
  pose proof (norm_nonneg b_vec) as Hnb. pose proof (norm_sqr b_vec) as Hsq.
  assert (Ht : 0 <= t).
  { unfold t. destruct (Rlt_dec (norm b_vec) Rad); [apply sqrt_pos | lra]. }
  assert (Hdot : dot u raw = - t).
  { transitivity (- t * dot u u + dot b_vec u);
      [unfold raw, dot, vadd, vmul, vneg; simpl; ring | rewrite Hu, Hb; ring]. }
  assert (Hraw : dot raw raw = t * t + dot b_vec b_vec).
  { transitivity (t * t * dot u u - 2 * t * dot b_vec u + dot b_vec b_vec);
      [unfold raw, dot, vadd, vmul, vneg; simpl; ring | rewrite Hu, Hb; ring]. }
  assert (Hlt : norm b_vec < Rad -> norm raw = Rad).
  { intros Hlt. apply norm_eq_of_sqr; [lra |]. rewrite Hraw. unfold t.
    destruct (Rlt_dec (norm b_vec) Rad) as [_ | Hn]; [| contradiction].
    rewrite sqrt_sqrt by nra. rewrite <- Hsq. ring. }
  assert (Hge : Rad <= norm b_vec -> raw = b_vec).
  { intros Hge. unfold raw, t.
    destruct (Rlt_dec (norm b_vec) Rad) as [Hn | _]; [lra |].
    apply vec_eq; simpl; ring. }
  repeat split; try assumption.
  destruct (Rlt_dec (norm b_vec) Rad) as [Hn | Hn].
  - rewrite (Hlt Hn). exact HR.
  - apply Rnot_lt_le in Hn. rewrite (Hge Hn). lra.
Qed.

Lemma compute_intersection_point_spec (u b_vec : vec) (Rad : R) (g : G) :
  norm u = 1 -> dot b_vec u = 0 -> 0 < Rad ->
  exists position lat lon g',
    compute_intersection_point u b_vec Rad g = (position, lat, lon, g') /\
    norm position = Rad /\
    dot u position <= 0 /\
    lat = asin (vz position / Rad) * 180 / PI /\
    lon = atan2 (vy position) (vx position) * 180 / PI /\
    (0 < norm b_vec -> g' = g) /\
    (norm b_vec = 0 ->
       g' = snd (sample_perp_unit_vector u g) /\ position = vmul (vneg u) Rad) /\
    (norm b_vec < Rad ->
       position = vadd (vmul (vneg u) (sqrt (Rad ^ 2 - norm b_vec ^ 2))) b_vec) /\
    (Rad <= norm b_vec -> position = vmul (vdiv b_vec (norm b_vec)) Rad).
Proof.
  intros Hu Hb HR.
  destruct (intersection_raw u b_vec Rad Hu Hb HR) as (Ht & Hdot & Hpos & Hlt & Hge).
  cbv zeta in Ht, Hdot, Hpos, Hlt, Hge.
  unfold compute_intersection_point, bind, ret.
  set (t := if Rlt_dec (norm b_vec) Rad then sqrt (Rad ^ 2 - norm b_vec ^ 2) else 0) in *.
  set (raw := vadd (vmul (vneg u) t) b_vec) in *.
  set (position := vmul (vdiv raw (norm raw)) Rad).
  assert (Hshort : norm b_vec < Rad -> position = raw).
  { intros Hn. unfold position. rewrite (Hlt Hn).
    apply vec_eq; simpl; field; lra. }
  assert (Hfacts :
    norm position = Rad /\ dot u position <= 0 /\
    (norm b_vec < Rad ->
       position = vadd (vmul (vneg u) (sqrt (Rad ^ 2 - norm b_vec ^ 2))) b_vec) /\
    (Rad <= norm b_vec -> position = vmul (vdiv b_vec (norm b_vec)) Rad)).
  { repeat split.
    - apply norm_rescale; lra.
    - replace (dot u position) with (dot u raw * / norm raw * Rad)
        by (unfold position, dot, vmul, vdiv; simpl; unfold Rdiv; ring).
      rewrite Hdot.
      assert (0 < / norm raw) by (apply Rinv_0_lt_compat, Hpos).
      assert (0 <= t * / norm raw) by (apply Rmult_le_pos; lra).
      nra.
    - intros Hn. rewrite (Hshort Hn). unfold raw, t.
      destruct (Rlt_dec (norm b_vec) Rad); [reflexivity | contradiction].
    - intros Hn. unfold position. rewrite (Hge Hn). reflexivity. }
  destruct Hfacts as (F1 & F2 & F3 & F4).
  destruct (Rlt_dec 0 (norm b_vec)) as [Hb0 | Hb0].
  - exists position, (asin (vz position / Rad) * 180 / PI),
      (atan2 (vy position) (vx position) * 180 / PI), g.
    split; [reflexivity |]. split; [exact F1 |]. split; [exact F2 |].
    split; [reflexivity |]. split; [reflexivity |]. split; [reflexivity |].
    split; [intros Hz; lra |]. split; assumption.
  - destruct (sample_perp_unit_vector u g) as [b_hat g1] eqn:E.
    exists position, (asin (vz position / Rad) * 180 / PI),
      (atan2 (vy position) (vx position) * 180 / PI), g1.
    split; [reflexivity |]. split; [exact F1 |]. split; [exact F2 |].
    split; [reflexivity |]. split; [reflexivity |].
    split; [intros Hz; contradiction |].
    split; [| split; assumption].
    intros Hz. split; [reflexivity |].
    assert (Hbz : b_vec = mkvec 0 0 0).
    { pose proof (norm_sqr b_vec) as Hsq. rewrite Hz in Hsq.
      unfold dot in Hsq. destruct b_vec as [x y z]; simpl in Hsq.
      assert (Hx : x = 0) by nra. assert (Hy : y = 0) by nra.
      assert (Hz0 : z = 0) by nra. rewrite Hx, Hy, Hz0. reflexivity. }
    rewrite F3 by lra. rewrite Hz, Hbz.
    replace (Rad ^ 2 - 0 ^ 2) with (Rad * Rad) by ring.
    rewrite sqrt_square by lra.
    apply vec_eq; simpl; ring.
Qed.

Lemma latitude_defined (position : vec) (Rad : R) :
  0 < Rad -> norm position = Rad ->
  -1 <= vz position / Rad <= 1 /\
  -90 <= asin (vz position / Rad) * 180 / PI <= 90.
Proof.
  intros HR Hn.
  pose proof (abs_vz_le_norm position) as Hz. rewrite Hn in Hz.
  assert (Hz' : - Rad <= vz position <= Rad)
    by (unfold Rabs in Hz; destruct (Rcase_abs (vz position)); lra).
  clear Hz.
  assert (Hq : -1 <= vz position / Rad <= 1).
  { split.
    - apply Rmult_le_reg_r with Rad; [exact HR |]. unfold Rdiv.
      rewrite Rmult_assoc, Rinv_l by lra. lra.
    - apply Rmult_le_reg_r with Rad; [exact HR |]. unfold Rdiv.
      rewrite Rmult_assoc, Rinv_l by lra. lra. }
  split; [exact Hq |].
  pose proof (asin_bound (vz position / Rad)) as Ha.
  pose proof PI_RGT_0 as Hpi.
  assert (Hi : 0 < / PI) by (apply Rinv_0_lt_compat; lra).
  assert (E : forall x, x * 180 / PI = 90 + (x - PI / 2) * (180 * / PI))
    by (intros x; field; lra).
  assert (E' : forall x, x * 180 / PI = -90 + (x + PI / 2) * (180 * / PI))
    by (intros x; field; lra).
  split.
  - rewrite E'. assert (0 <= (asin (vz position / Rad) + PI / 2) * (180 * / PI))
      by (apply Rmult_le_pos; lra). lra.
  - rewrite E. assert (0 <= (PI / 2 - asin (vz position / Rad)) * (180 * / PI))
      by (apply Rmult_le_pos; lra). lra.
Qed.

(** *** The entry angle *)




Lemma v_esc_gt_1 : 1 < v_esc.
Proof.
  unfold v_esc. rewrite <- sqrt_1 at 1. apply sqrt_lt_1; [lra | |].
  - unfold G_grav, M_E, R_top, R_E, h0. lra.
  - unfold G_grav, M_E, R_top, R_E, h0. lra.
Qed.

Lemma v_entry_mag_ge_v_esc (v_inf : R) : v_esc <= sqrt (v_inf ^ 2 + v_esc ^ 2).
Proof.
  pose proof v_esc_gt_1 as Hv.
  rewrite <- (sqrt_square v_esc) at 1 by lra.
  apply sqrt_le_1_alt. nra.
Qed.

Lemma R_top_pos : 0 < R_top.
Proof. unfold R_top, R_E, h0. lra. Qed.

(** *** The geometry of one particle *)


(** *** The radius *)

Lemma ln_10_pos : 0 < ln 10.
Proof. rewrite <- ln_1. apply ln_increasing; lra. Qed.

Lemma Rpower_10_log10 (x : R) : 0 < x -> Rpower 10 (log10 x) = x.
Proof.
  intros Hx. pose proof ln_10_pos as H10. unfold Rpower, log10.
  replace (ln x / ln 10 * ln 10) with (ln x) by (field; lra).
  apply exp_ln, Hx.
Qed.

Lemma log10_increasing (x y : R) : 0 < x -> x < y -> log10 x < log10 y.
Proof.
  intros Hx Hxy. pose proof ln_10_pos as H10. unfold log10.
  apply Rmult_lt_compat_r; [apply Rinv_0_lt_compat, H10 | apply ln_increasing; lra].
Qed.

Lemma Rpower_10_le (a b : R) : a <= b -> Rpower 10 a <= Rpower 10 b.
Proof.
  intros [Hlt | Heq]; [left; apply Rpower_lt; lra | subst; right; reflexivity].
Qed.


(** A draw of [0, 1) raised to a positive power stays in [0, 1). *)
Lemma float_pow_pos_exponent (u e : R) : 0 <= u < 1 -> 0 < e -> 0 <= float_pow u e < 1.
Proof.
  intros Hu He. unfold float_pow.
  destruct (Req_dec_T u 0) as [H0 | Hn].
  - destruct (Req_dec_T e 0); lra.
  - unfold Rpower. split; [left; apply exp_pos |].
    rewrite <- exp_0. apply exp_increasing.
    assert (Hl : ln u < 0) by (rewrite <- ln_1; apply ln_increasing; lra).
    nra.
Qed.


(** For an exponent [q <= 1] the radius stays within [r_min, r_max]. *)
Lemma sample_radius_shallow (r_min r_max q : R) (g : G) :
  0 < r_min < r_max -> q <= 1 ->
  r_min <= fst (sample_radius r_min r_max q g) <= r_max.
Proof.
  intros Hr Hq. unfold sample_radius.
  pose proof (log10_increasing r_min r_max ltac:(lra) ltac:(lra)) as Hl.
  pose proof (Rpower_10_log10 r_min ltac:(lra)) as Emin.
  pose proof (Rpower_10_log10 r_max ltac:(lra)) as Emax.
  enough (Hgoal : Rpower 10 (log10 r_min) <= fst (sample_radius r_min r_max q g)
                  <= Rpower 10 (log10 r_max)) by (unfold sample_radius in Hgoal; lra).
  unfold sample_radius.
  destruct (Req_dec_T q 1) as [Hq1 | Hq1]; unfold bind, ret.
  - pose proof (uniform_range _ _ g Hl) as Hrange.
    destruct (rng_uniform (log10 r_min) (log10 r_max) g) as [log_r g1].
    cbn [fst] in *. split; apply Rpower_10_le; lra.
  - pose proof (uniform_range 0 1 g ltac:(lra)) as Hrange.
    destruct (rng_uniform 0 1 g) as [u g1]. cbn [fst] in *.
    assert (He : 0 < 1 / (1 - q)).
    { unfold Rdiv. rewrite Rmult_1_l. apply Rinv_0_lt_compat. lra. }
    pose proof (float_pow_pos_exponent u (1 / (1 - q)) Hrange He) as Hp.
    split; apply Rpower_10_le; nra.
Qed.

Lemma simulate_particle_radius (r_min r_max q : R) (g : G) :
  pr_r (fst (simulate_particle r_min r_max q g))
  = fst (sample_radius r_min r_max q (snd (sample_source g))).
Proof.
  unfold simulate_particle. rand_steps.
  match goal with E : sample_radius _ _ _ _ = _ |- _ => rewrite E end.
  reflexivity.
Qed.

(** With the draw 1/4 and the exponent 3 the radius is [r_min ^ 2 / r_max]. *)
Lemma sample_radius_quarter (r_min r_max : R) (g : G) :
  0 < r_min -> 0 < r_max -> fst (rng_uniform 0 1 g) = 1 / 4 ->
  fst (sample_radius r_min r_max 3.0 g) = r_min ^ 2 / r_max.
Proof.
  intros Hmin Hmax Hu. unfold sample_radius.
  destruct (Req_dec_T 3.0 1) as [Hq | _]; [lra |].
  unfold bind, ret. destruct (rng_uniform 0 1 g) as [u g1]. cbn [fst] in *. subst u.
  assert (Hp : float_pow (1 / 4) (1 / (1 - 3.0)) = 2).
  { unfold float_pow. destruct (Req_dec_T (1 / 4) 0) as [H0 | _]; [lra |].
    replace (1 / (1 - 3.0)) with (- / 2) by lra.
    rewrite Rpower_Ropp, Rpower_sqrt by lra.
    replace (1 / 4) with ((1 / 2) * (1 / 2)) by lra.
    rewrite sqrt_square by lra. lra. }
  rewrite Hp. pose proof ln_10_pos as H10.
  unfold Rpower, log10.
  replace ((ln r_min / ln 10 + (ln r_max / ln 10 - ln r_min / ln 10) * (1 - 2)) * ln 10)
    with (ln r_min + ln r_min + - ln r_max) by (field; lra).
  rewrite !exp_plus, exp_Ropp, !exp_ln by lra. simpl. field. lra.
Qed.

Lemma run_simulation_one (r_min r_max q : R) (self : Simulator) :
  run_simulation 1 r_min r_max q self =
  Ok ([fst (simulate_particle r_min r_max q (rng self))],
      mkSimulator (snd (simulate_particle r_min r_max q (rng self)))
                  [fst (simulate_particle r_min r_max q (rng self))]).
Proof.
  unfold run_simulation. change (Z.to_nat 1) with 1%nat.
  unfold simulate_loop, bind, ret.
  destruct (simulate_particle r_min r_max q (rng self)) as [p g]. reflexivity.
Qed.

(** ** The claims *)

(** With equal bounds the radius is that bound, whatever is drawn, in the
    branch [q <> 1]. *)
Lemma sample_radius_degenerate (r q : R) (g : G) :
  0 < r -> q <> 1 -> fst (sample_radius r r q g) = r.
Proof.
  intros Hr Hq. unfold sample_radius.
  destruct (Req_dec_T q 1) as [E | _]; [contradiction |].
  unfold bind, ret. destruct (rng_uniform 0 1 g) as [u g1]. cbn [fst].
  replace (log10 r + (log10 r - log10 r) * (1 - float_pow u (1 / (1 - q))))
    with (log10 r) by ring.
  apply Rpower_10_log10, Hr.
Qed.

(** C2, as amended: [run_simulation] has no check of its parameters.
    With [N <= 0], whatever [r_min], [r_max] and [q] are, it returns the
    empty list, which replaces the stored results, and leaves the generator
    where it was.  With [N > 0] and [0 < r_min = r_max] it does not reject
    the range: for [q < 1] it returns [N] results, each of radius [r_min],
    and the draw position has moved forward. *)
Theorem C2_run_simulation_no_validation (self : Simulator) (N : Z) (r_min r_max q : R) :
  ((N <= 0)%Z ->
     run_simulation N r_min r_max q self = Ok ([], mkSimulator (rng self) [])) /\
  ((0 < N)%Z -> 0 < r_min -> r_min = r_max -> q < 1 ->
     exists rs self',
       run_simulation N r_min r_max q self = Ok (rs, self') /\
       results self' = rs /\
       List.length rs = Z.to_nat N /\
       Forall (fun p => pr_r p = r_min) rs /\
       (draws (rng self) < draws (rng self'))%nat).
Proof.
  split.
  - intros HN. unfold run_simulation.
    replace (Z.to_nat N) with 0%nat by lia. reflexivity.
  - intros HN Hr Heq Hq. subst r_max.
    destruct (run_simulation_ok N r_min r_min q self) as (rs & g & Hrun & Hloop & Hlen).
    exists rs, (mkSimulator g rs).
    split; [exact Hrun |]. split; [reflexivity |]. split; [exact Hlen |]. split.
    + replace rs with (fst (simulate_loop (Z.to_nat N) r_min r_min q [] (rng self)))
        by (rewrite <- Hloop; reflexivity).
      apply simulate_loop_Forall; [| constructor].
      intros g0. rewrite simulate_particle_radius.
      apply sample_radius_degenerate; lra.
    + destruct (Z.to_nat N) as [| n] eqn:En; [lia |].
      pose proof (simulate_loop_consumes n r_min r_min q [] (rng self)) as Hc.
      rewrite <- Hloop in Hc. exact Hc.
Qed.

(** C3, as amended: on a simulator without results [export_csv] raises
    ValueError, and [get_diagnostics] returns the empty dictionary without
    raising. *)
Theorem C3_empty_results (self : @Simulator G) (filename : string) :
  results self = [] ->
  export_csv filename self = Raise (ValueError "No simulation results to export") /\
  get_diagnostics self = Ok ([], self).
Proof.
  intros He. unfold export_csv, get_diagnostics. rewrite He. split; reflexivity.
Qed.

(** C4: two simulators whose generators were built from the same integer
    seed return, for the same parameters, the same list of results, and end
    in the same state. *)
Theorem C4_same_seed_same_results (seed : Z) (s1 s2 : Simulator) (N : Z)
    (r_min r_max q : R) :
  rng s1 = default_rng seed -> rng s2 = default_rng seed ->
  exists rs self',
    run_simulation N r_min r_max q s1 = Ok (rs, self') /\
    run_simulation N r_min r_max q s2 = Ok (rs, self') /\
    List.length rs = Z.to_nat N.
Proof.
  intros H1 H2.
  destruct (run_simulation_ok N r_min r_max q s1) as (rs & g & Hrun & Hloop & Hlen).
  exists rs, (mkSimulator g rs). split; [exact Hrun |]. split; [| exact Hlen].
  rewrite <- Hrun. unfold run_simulation. rewrite H1, H2. reflexivity.
Qed.

(** C5: every result of a run has [v_entry = sqrt (v_inf^2 + v_esc^2)], where
    [v_esc = sqrt (2 G M_E / R_top)] and [R_top = 6.371e6 + 1.0e5]. *)
Theorem C5_entry_velocity (self : Simulator) (N : Z) (r_min r_max q : R) :
  exists rs self',
    run_simulation N r_min r_max q self = Ok (rs, self') /\
    results self' = rs /\
    List.length rs = Z.to_nat N /\
    Forall (fun p => pr_v_entry p = sqrt (pr_v_inf p ^ 2 + v_esc ^ 2)) rs /\
    v_esc = sqrt (2 * G_grav * M_E / R_top) /\
    R_top = 6.371e6 + 1.0e5.
Proof.
  destruct (run_simulation_Forall
              (fun p => pr_v_entry p = sqrt (pr_v_inf p ^ 2 + v_esc ^ 2))
              N r_min r_max q self (simulate_particle_v_entry r_min r_max q))
    as (rs & self' & Hrun & Hres & Hlen & Hall).
  exists rs, self'. repeat split; try assumption.
  unfold R_top, R_E, h0. lra.
Qed.

(** C6: every result of a run has [m = (4/3) pi r^3 rho], and [rho] is the
    density the table gives for its material: 3000 for silicate, 1500 for
    carbonaceous, 7800 for iron_nickel. *)
Theorem C6_mass_and_density (self : Simulator) (N : Z) (r_min r_max q : R) :
  exists rs self',
    run_simulation N r_min r_max q self = Ok (rs, self') /\
    results self' = rs /\
    List.length rs = Z.to_nat N /\
    Forall (fun p =>
              pr_m p = (4 / 3) * PI * pr_r p ^ 3 * pr_rho p /\
              pr_rho p = MATERIAL_DENSITIES (pr_material p) /\
              pr_rho p = match pr_material p with
                         | silicate => 3000
                         | carbonaceous => 1500
                         | iron_nickel => 7800
                         end) rs.
Proof.
  apply run_simulation_Forall. intros g.
  destruct (simulate_particle_mass r_min r_max q g) as [Hm Hrho].
  split; [exact Hm |]. split; [exact Hrho |].
  rewrite Hrho. destruct (pr_material _); unfold MATERIAL_DENSITIES; lra.
Qed.


(** C8: for a unit vector [u], a vector [b_vec] perpendicular to it and a
    radius [Rad > 0], [compute_intersection_point] returns a position of
    norm exactly [Rad], with [z / Rad] in [-1, 1], so that the latitude
    [asin (z / Rad) * 180 / pi] is defined and lies in [-90, 90].  When
    [b_vec] is zero the unit direction is drawn by [sample_perp_unit_vector]
    (no division by the zero norm) and the position is [-u * Rad]; when
    [b_vec] is not shorter than [Rad], [t] is 0 and the position is [b_vec]
    rescaled to [Rad]. *)
Theorem C8_compute_intersection_point_guarded (u b_vec : vec) (Rad : R) (g : G) :
  norm u = 1 -> dot b_vec u = 0 -> 0 < Rad ->
  exists position lat lon g',
    compute_intersection_point u b_vec Rad g = (position, lat, lon, g') /\
    norm position = Rad /\
    -1 <= vz position / Rad <= 1 /\
    lat = asin (vz position / Rad) * 180 / PI /\
    -90 <= lat <= 90 /\
    (0 < norm b_vec -> g' = g) /\
    (norm b_vec = 0 ->
       g' = snd (sample_perp_unit_vector u g) /\ position = vmul (vneg u) Rad) /\
    (norm b_vec < Rad ->
       position = vadd (vmul (vneg u) (sqrt (Rad ^ 2 - norm b_vec ^ 2))) b_vec) /\
    (Rad <= norm b_vec -> position = vmul (vdiv b_vec (norm b_vec)) Rad).
Proof.
  intros Hu Hb HR.
  destruct (compute_intersection_point_spec u b_vec Rad g Hu Hb HR)
    as (position & lat & lon & g' & E & Hn & _ & Hlat & _ & Hg & Hz & Hlt & Hge).
  destruct (latitude_defined position Rad HR Hn) as [Hq Hdeg].
  exists position, lat, lon, g'.
  split; [exact E |]. split; [exact Hn |]. split; [exact Hq |].
  split; [exact Hlat |]. split; [rewrite Hlat; exact Hdeg |].
  split; [exact Hg |]. split; [exact Hz |]. split; assumption.
Qed.

(** C9: for a unit vector [u] and every state of the generator, so for
    every rotation angle drawn and for either seed axis,
    [sample_perp_unit_vector u] returns a vector of norm one whose dot
    product with [u] is zero. *)
Theorem C9_sample_perp_unit_vector (u : vec) (g : G) :
  norm u = 1 ->
  dot (fst (sample_perp_unit_vector u g)) u = 0 /\
  norm (fst (sample_perp_unit_vector u g)) = 1.
Proof. apply sample_perp_unit_vector_spec. Qed.


End Runs.

(** ** Closed instances, on the cyclic generator *)

Lemma cyclic_nondegenerate : nondegenerate_normal3 (G := nat).
Proof.
  intros g. apply Rgt_not_eq, norm_pos_of_dot.
  unfold dot; simpl. nra.
Qed.

Lemma unit_z : norm (mkvec 0 0 1) = 1.
Proof. apply norm_unit_iff. unfold dot; simpl. ring. Qed.

Lemma unit_x : norm (mkvec 1 0 0) = 1.
Proof. apply norm_unit_iff. unfold dot; simpl. ring. Qed.

(** C1 fails on the code: with the default exponent [q = 3.0] and the default
    radius range, the one particle of a run whose radius draw is 1/4 has
    radius 1e-11, below [r_min = 0.1e-6]. *)
Theorem C1_default_exponent_radius_below_r_min :
  exists p self',
    run_simulation 1 0.1e-6 1e-3 3.0 (init (G := nat) 0) = Ok ([p], self') /\
    pr_r p = 1e-11 /\
    pr_r p < 0.1e-6.
Proof.
  rewrite run_simulation_one. eexists _, _. split; [reflexivity |].
  rewrite simulate_particle_radius.
  change (snd (sample_source (rng (init (G := nat) 0)))) with 1%nat.
  rewrite sample_radius_quarter.
  - split; [| simpl]; lra.
  - lra.
  - lra.
  - unfold rng_uniform, CyclicGen.gen, CyclicGen.unit_draw. simpl. lra.
Qed.

(** C2 fails on the code: a run with [N = 0] returns the empty list and
    raises nothing; a run of one particle with [r_min = r_max = 1e-3] and the
    default [q = 3.0], on the radius draw 1/4, returns that particle, of
    radius 1e-3, after drawing. *)
Lemma C2_counterexample :
  run_simulation 0 0.1e-6 1e-3 3.0 (init (G := nat) 42) = Ok ([], init 42) /\
  (forall e, run_simulation 0 0.1e-6 1e-3 3.0 (init (G := nat) 42) <> Raise e) /\
  exists p self',
    run_simulation 1 1e-3 1e-3 3.0 (init (G := nat) 0) = Ok ([p], self') /\
    pr_r p = 1e-3 /\
    (draws (rng (init (G := nat) 0)) < draws (rng self'))%nat.
Proof.
  split; [reflexivity |]. split; [intros e; discriminate |].
  rewrite run_simulation_one. eexists _, _. split; [reflexivity |]. split.
  - rewrite simulate_particle_radius.
    change (snd (sample_source (rng (init (G := nat) 0)))) with 1%nat.
    rewrite sample_radius_quarter.
    + simpl. lra.
    + lra.
    + lra.
    + unfold rng_uniform, CyclicGen.gen, CyclicGen.unit_draw. simpl. lra.
  - cbn [rng]. apply consumes_simulate_particle.
Qed.

(** C2 at [N = 0] with the default range, and at [N = 2] with
    [r_min = r_max = 1e-3] and [q = 0.5]. *)
Lemma C2_witness :
  run_simulation 0 0.1e-6 1e-3 3.0 (init (G := nat) 42)
    = Ok ([], mkSimulator (rng (init 42)) []) /\
  exists rs self',
    run_simulation 2 1e-3 1e-3 0.5 (init (G := nat) 42) = Ok (rs, self') /\
    results self' = rs /\
    List.length rs = Z.to_nat 2 /\
    Forall (fun p => pr_r p = 1e-3) rs /\
    (draws (rng (init (G := nat) 42)) < draws (rng self'))%nat.
Proof.
  split.
  - apply (C2_run_simulation_no_validation (init 42) 0 0.1e-6 1e-3 3.0). lia.
  - apply (C2_run_simulation_no_validation (init 42) 2 1e-3 1e-3 0.5);
      [lia | lra | reflexivity | lra].
Defined.

(** C3 fails on the code: [get_diagnostics] on a new simulator returns the
    empty dictionary and does not raise. *)
Lemma C3_counterexample :
  results (init (G := nat) 42) = [] /\
  get_diagnostics (init (G := nat) 42) = Ok ([], init 42) /\
  (forall e, get_diagnostics (init (G := nat) 42) <> Raise e).
Proof.
  split; [reflexivity |]. split; [reflexivity |]. intros e. discriminate.
Qed.

(** C3 on a new simulator. *)
Lemma C3_witness :
  results (init (G := nat) 42) = [] /\
  export_csv "out.csv" (init (G := nat) 42)
    = Raise (ValueError "No simulation results to export") /\
  get_diagnostics (init (G := nat) 42) = Ok ([], init 42).
Proof.
  split; [reflexivity |].
  apply (C3_empty_results (init (G := nat) 42) "out.csv"). reflexivity.
Defined.

(** C4 on a new simulator and on one that already holds a result, both seeded with 7. *)
Lemma C4_witness :
  rng (init (G := nat) 7) = default_rng 7 /\
  rng seeded_with_history = default_rng 7 /\
  exists rs self',
    run_simulation 3 0.1e-6 1e-3 3.0 (init 7) = Ok (rs, self') /\
    run_simulation 3 0.1e-6 1e-3 3.0 seeded_with_history = Ok (rs, self') /\
    List.length rs = Z.to_nat 3.
Proof.
  split; [reflexivity |]. split; [reflexivity |].
  apply (C4_same_seed_same_results 7 (init 7) seeded_with_history 3 0.1e-6 1e-3 3.0);
    reflexivity.
Defined.


(** C8 at [b_vec = 0], the branch that draws the direction. *)
Lemma C8_witness :
  norm (mkvec 0 0 1) = 1 /\ dot (mkvec 0 0 0) (mkvec 0 0 1) = 0 /\ 0 < R_top /\
  exists position lat lon g',
    compute_intersection_point (mkvec 0 0 1) (mkvec 0 0 0) R_top 0%nat
      = (position, lat, lon, g') /\
    norm position = R_top /\
    -1 <= vz position / R_top <= 1 /\
    lat = asin (vz position / R_top) * 180 / PI /\
    -90 <= lat <= 90 /\
    (0 < norm (mkvec 0 0 0) -> g' = 0%nat) /\
    (norm (mkvec 0 0 0) = 0 ->
       g' = snd (sample_perp_unit_vector (mkvec 0 0 1) 0%nat) /\
       position = vmul (vneg (mkvec 0 0 1)) R_top) /\
    (norm (mkvec 0 0 0) < R_top ->
       position = vadd (vmul (vneg (mkvec 0 0 1))
                             (sqrt (R_top ^ 2 - norm (mkvec 0 0 0) ^ 2)))
                       (mkvec 0 0 0)) /\
    (R_top <= norm (mkvec 0 0 0) ->
       position = vmul (vdiv (mkvec 0 0 0) (norm (mkvec 0 0 0))) R_top).
Proof.
  assert (Hd : dot (mkvec 0 0 0) (mkvec 0 0 1) = 0) by (unfold dot; simpl; ring).
  split; [exact unit_z |]. split; [exact Hd |]. split; [exact R_top_pos |].
  exact (C8_compute_intersection_point_guarded (mkvec 0 0 1) (mkvec 0 0 0) R_top 0%nat
           unit_z Hd R_top_pos).
Defined.

(** C9 at the x axis, where the seed axis is the y axis. *)
Lemma C9_witness :
  norm (mkvec 1 0 0) = 1 /\
  dot (fst (sample_perp_unit_vector (mkvec 1 0 0) 5%nat)) (mkvec 1 0 0) = 0 /\
  norm (fst (sample_perp_unit_vector (mkvec 1 0 0) 5%nat)) = 1.
Proof.
  split; [exact unit_x |].
  exact (C9_sample_perp_unit_vector (mkvec 1 0 0) 5%nat unit_x).
Defined.


(** * Further properties of the sampling pipeline *)

Section Sampling.

Context {G : Type} `{Generator G}.

Ltac rand_step :=
  match goal with
  | |- context [match ?c with pair _ _ => _ end] =>
      let E := fresh "E" in destruct c eqn:E
  end.

Ltac rand_steps := unfold bind, ret; repeat rand_step; cbn [fst snd].

Lemma clip_range (v lo hi : R) : lo <= hi -> lo <= clip v lo hi <= hi.
Proof.
  intros Hle. unfold clip, Rmin, Rmax.
  destruct (Rle_dec v lo); destruct (Rle_dec _ hi); lra.
Qed.

Lemma velocity_range_ordered (source : source_family) :
  0 < fst (SOURCE_VELOCITY_RANGES source) < snd (SOURCE_VELOCITY_RANGES source).
Proof. destruct source; simpl; lra. Qed.

Lemma sample_v_inf_range (source : source_family) (g : G) :
  fst (SOURCE_VELOCITY_RANGES source) <= fst (sample_v_inf source g)
    <= snd (SOURCE_VELOCITY_RANGES source).
Proof.
  pose proof (velocity_range_ordered source) as Ho.
  unfold sample_v_inf. destruct (SOURCE_VELOCITY_RANGES source) as [v_min v_max].
  cbn [fst snd] in *. unfold bind, ret.
  destruct (rng_normal ((v_min + v_max) / 2) ((v_max - v_min) / 4) g) as [v g1].
  cbn [fst]. apply clip_range. lra.
Qed.

(** [choice] returns one of the listed values. *)
Lemma choice_In {A : Type} (d : A) (xs : list A) (probs : list R) (g : G) :
  probs <> [] -> List.length probs = List.length xs ->
  In (fst (choice d xs probs g)) xs.
Proof.
  intros Hne Hlen. unfold choice, bind, ret.
  pose proof (choice_range probs g Hne) as Hi.
  destruct (rng_choice probs g) as [i g1]. cbn [fst] in *.
  apply nth_In. rewrite <- Hlen. exact Hi.
Qed.

Lemma sample_material_In (source : source_family) (g : G) :
  In (fst (sample_material source g)) (map fst (SOURCE_MATERIAL_DISTRIBUTIONS source)).
Proof.
  unfold sample_material. apply choice_In.
  - destruct source; discriminate.
  - unfold normalize_probs. rewrite !length_map. reflexivity.
Qed.

Lemma sample_source_In (g : G) : In (fst (sample_source g)) (map fst SOURCE_FRACTIONS).
Proof.
  unfold sample_source. apply choice_In.
  - discriminate.
  - unfold normalize_probs. rewrite !length_map. reflexivity.
Qed.

Lemma impact_parameter_range (x v_inf : R) :
  0 <= x < 1 ->
  0 <= sqrt x * (R_top * sqrt (1 + v_esc ^ 2 / v_inf ^ 2))
    < R_top * sqrt (1 + v_esc ^ 2 / v_inf ^ 2).
Proof.
  intros Hx. pose proof R_top_pos as HR.
  assert (Hq : 0 <= v_esc ^ 2 / v_inf ^ 2).
  { unfold Rdiv. apply Rmult_le_pos; [apply pow2_ge_0 |].
    destruct (Req_dec_T (v_inf ^ 2) 0) as [E | E].
    - rewrite E, Rinv_0. lra.
    - left. apply Rinv_0_lt_compat. pose proof (pow2_ge_0 v_inf). lra. }
  assert (Hs : 1 <= sqrt (1 + v_esc ^ 2 / v_inf ^ 2)).
  { rewrite <- sqrt_1 at 1. apply sqrt_le_1_alt. lra. }
  assert (Hsx : 0 <= sqrt x < 1).
  { split; [apply sqrt_pos |]. rewrite <- sqrt_1. apply sqrt_lt_1_alt. lra. }
  set (bmax := R_top * sqrt (1 + v_esc ^ 2 / v_inf ^ 2)).
  assert (HP : 0 < bmax) by (apply Rmult_lt_0_compat; lra).
  split; [apply Rmult_le_pos; lra |].
  rewrite <- (Rmult_1_l bmax) at 2. apply Rmult_lt_compat_r; lra.
Qed.

Lemma Rltb_true_iff (a b : R) : Rltb a b = true <-> a < b.
Proof. unfold Rltb. destruct (Rlt_dec a b); split; intros; try assumption; try reflexivity; try discriminate; contradiction. Qed.

Lemma v_esc_sqr : v_esc ^ 2 = 2 * G_grav * M_E / R_top.
Proof.
  unfold v_esc. simpl. rewrite Rmult_1_r. apply sqrt_sqrt.
  unfold G_grav, M_E, R_top, R_E, h0. lra.
Qed.

(** What one particle owes to its draws of source, material, speed and
    impact parameter. *)
Lemma simulate_particle_sampling (r_min r_max q : R) (g : G) :
  let p := fst (simulate_particle r_min r_max q g) in
  fst (SOURCE_VELOCITY_RANGES (pr_source_family p)) <= pr_v_inf p
    <= snd (SOURCE_VELOCITY_RANGES (pr_source_family p)) /\
  In (pr_material p) (map fst (SOURCE_MATERIAL_DISTRIBUTIONS (pr_source_family p))) /\
  0 <= pr_impact_parameter_b p
    < R_top * sqrt (1 + v_esc ^ 2 / pr_v_inf p ^ 2) /\
  pr_em_flag p = Rltb (pr_r p) 0.5e-6 /\
  pr_high_energy_flag p = Rltb 50e3 (pr_v_entry p) /\
  pr_selected_for_atmosphere p = true.
Proof.
  unfold simulate_particle, bind, ret.
  destruct (sample_source g) as [source g1].
  destruct (sample_radius r_min r_max q g1) as [r g2].
  pose proof (sample_material_In source g2) as Hmat.
  destruct (sample_material source g2) as [material g3].
  pose proof (sample_v_inf_range source g3) as Hv.
  destruct (sample_v_inf source g3) as [v_inf g4].
  destruct (sample_direction source g4) as [u g5].
  destruct (sample_perp_unit_vector u g5) as [b_hat g6].
  pose proof (uniform_range 0 1 g6 ltac:(lra)) as Hx.
  destruct (rng_uniform 0 1 g6) as [x g7].
  destruct (compute_intersection_point _ _ _ g7) as [[[position lat] lon] g8].
  cbn [fst snd] in *. cbn.
  split; [exact Hv |]. split; [exact Hmat |].
  split; [apply impact_parameter_range, Hx |].
  repeat split.
Qed.

(** An asteroidal particle stays below the high-energy threshold. *)
Lemma asteroidal_entry_speed (v_inf : R) :
  v_inf <= 25e3 -> 0 <= v_inf -> sqrt (v_inf ^ 2 + v_esc ^ 2) < 50e3.
Proof.
  intros Hhi Hlo. rewrite v_esc_sqr.
  replace 50e3 with (sqrt (50e3 * 50e3)) by (apply sqrt_square; lra).
  apply sqrt_lt_1_alt. split.
  - assert (0 <= 2 * G_grav * M_E / R_top)
      by (unfold G_grav, M_E, R_top, R_E, h0; lra).
    nra.
  - assert (2 * G_grav * M_E / R_top < 2e8)
      by (unfold G_grav, M_E, R_top, R_E, h0; lra).
    nra.
Qed.

(** X1: with [0 < r_min < r_max] and an exponent [q <= 1], every result of a
    run has its radius within [r_min, r_max]. *)
Theorem X1_radius_in_range_shallow_exponent (self : Simulator) (N : Z)
    (r_min r_max q : R) :
  0 < r_min < r_max -> q <= 1 ->
  exists rs self',
    run_simulation N r_min r_max q self = Ok (rs, self') /\
    results self' = rs /\
    List.length rs = Z.to_nat N /\
    Forall (fun p => r_min <= pr_r p <= r_max) rs.
Proof.
  intros Hr Hq. apply run_simulation_Forall. intros g.
  rewrite simulate_particle_radius. apply sample_radius_shallow; assumption.
Qed.


(** X3: in every result of a run, [v_inf] lies within the velocity range of
    the particle's own source family, and is positive. *)
Theorem X3_v_inf_within_source_range (self : Simulator) (N : Z) (r_min r_max q : R) :
  exists rs self',
    run_simulation N r_min r_max q self = Ok (rs, self') /\
    results self' = rs /\
    List.length rs = Z.to_nat N /\
    Forall (fun p =>
              fst (SOURCE_VELOCITY_RANGES (pr_source_family p)) <= pr_v_inf p
                <= snd (SOURCE_VELOCITY_RANGES (pr_source_family p)) /\
              11e3 <= pr_v_inf p <= 100e3) rs.
Proof.
  apply run_simulation_Forall. intros g.
  destruct (simulate_particle_sampling r_min r_max q g) as (Hv & _).
  split; [exact Hv |].
  destruct (pr_source_family _); simpl in Hv; lra.
Qed.

(** X4: in every result of a run the material is one of the two materials
    of the particle's source family: silicate or iron_nickel for asteroidal,
    carbonaceous or silicate for cometary, silicate or carbonaceous for
    interstellar. *)
Theorem X4_material_from_source_mix (self : Simulator) (N : Z) (r_min r_max q : R) :
  exists rs self',
    run_simulation N r_min r_max q self = Ok (rs, self') /\
    results self' = rs /\
    List.length rs = Z.to_nat N /\
    Forall (fun p =>
              match pr_source_family p with
              | asteroidal => pr_material p = silicate \/ pr_material p = iron_nickel
              | cometary => pr_material p = carbonaceous \/ pr_material p = silicate
              | interstellar => pr_material p = silicate \/ pr_material p = carbonaceous
              end) rs.
Proof.
  apply run_simulation_Forall. intros g.
  destruct (simulate_particle_sampling r_min r_max q g) as (_ & Hm & _).
  destruct (pr_source_family _); simpl in Hm;
    destruct Hm as [Hm | [Hm | []]]; auto.
Qed.

(** X5: in every result of a run the impact parameter is at least 0 and
    below [b_max = R_top * sqrt (1 + v_esc^2 / v_inf^2)]. *)
Theorem X5_impact_parameter_bounds (self : Simulator) (N : Z) (r_min r_max q : R) :
  exists rs self',
    run_simulation N r_min r_max q self = Ok (rs, self') /\
    results self' = rs /\
    List.length rs = Z.to_nat N /\
    Forall (fun p =>
              0 <= pr_impact_parameter_b p
                < R_top * sqrt (1 + v_esc ^ 2 / pr_v_inf p ^ 2)) rs.
Proof.
  apply run_simulation_Forall. intros g.
  destruct (simulate_particle_sampling r_min r_max q g) as (_ & _ & Hb & _).
  exact Hb.
Qed.

(** X6: in every result of a run, [em_flag] holds exactly when [r < 0.5e-6],
    [high_energy_flag] exactly when [v_entry > 50e3], and
    [selected_for_atmosphere] always; an asteroidal particle never has
    [high_energy_flag], and a particle with [v_inf >= 50e3] always has it. *)
Theorem X6_flags (self : Simulator) (N : Z) (r_min r_max q : R) :
  exists rs self',
    run_simulation N r_min r_max q self = Ok (rs, self') /\
    results self' = rs /\
    List.length rs = Z.to_nat N /\
    Forall (fun p =>
              (pr_em_flag p = true <-> pr_r p < 0.5e-6) /\
              (pr_high_energy_flag p = true <-> 50e3 < pr_v_entry p) /\
              pr_selected_for_atmosphere p = true /\
              (pr_source_family p = asteroidal -> pr_high_energy_flag p = false) /\
              (50e3 <= pr_v_inf p -> pr_high_energy_flag p = true)) rs.
Proof.
  apply run_simulation_Forall. intros g.
  destruct (simulate_particle_sampling r_min r_max q g)
    as (Hv & _ & _ & Hem & Hhe & Hsel).
  pose proof (simulate_particle_v_entry r_min r_max q g) as Hve. cbv zeta in Hve.
  set (p := fst (simulate_particle r_min r_max q g)) in *.
  split; [rewrite Hem; apply Rltb_true_iff |].
  split; [rewrite Hhe; apply Rltb_true_iff |].
  split; [exact Hsel |]. split.
  - intros Hs. rewrite Hs in Hv. simpl in Hv.
    destruct (pr_high_energy_flag p) eqn:E; [| reflexivity].
    symmetry in Hhe. apply Rltb_true_iff in Hhe. rewrite Hve in Hhe.
    pose proof (asteroidal_entry_speed (pr_v_inf p) ltac:(lra) ltac:(lra)). lra.
  - intros Hfast. rewrite Hhe. apply Rltb_true_iff. rewrite Hve.
    pose proof v_esc_gt_1 as Hesc.
    rewrite <- (sqrt_square 50e3) at 1 by lra. apply sqrt_lt_1_alt. nra.
Qed.

(** *** Longitude, latitude and the entry angle *)

Lemma atan2_range (y x : R) : - PI < atan2 y x <= PI.
Proof.
  pose proof PI_RGT_0 as Hpi. unfold atan2.
  destruct (Rlt_dec 0 x) as [Hx | Hx].
  - pose proof (atan_bound (y / x)). lra.
  - destruct (Rlt_dec x 0) as [Hx' | Hx'].
    + pose proof (atan_bound (y / x)) as Hb.
      assert (Hi : / x < 0) by (apply Rinv_lt_0_compat, Hx').
      destruct (Rle_dec 0 y) as [Hy | Hy].
      * assert (Hq : y / x <= 0) by (unfold Rdiv; nra).
        assert (Ha : atan (y / x) <= 0).
        { destruct Hq as [Hq | Hq]; [| rewrite Hq, atan_0; lra].
          left. rewrite <- atan_0. apply atan_increasing, Hq. }
        lra.
      * assert (Hq : 0 < y / x) by (unfold Rdiv; nra).
        assert (Ha : 0 < atan (y / x))
          by (rewrite <- atan_0; apply atan_increasing, Hq).
        lra.
    + destruct (Rlt_dec 0 y); [lra |]. destruct (Rlt_dec y 0); lra.
Qed.

Lemma degrees_range (a : R) : - PI < a <= PI -> -180 < a * 180 / PI <= 180.
Proof.
  intros Ha. pose proof PI_RGT_0 as Hpi.
  assert (Hi : 0 < / PI) by (apply Rinv_0_lt_compat; lra).
  replace (a * 180 / PI) with (180 + (a - PI) * (180 * / PI)) by (field; lra).
  split.
  - replace (-180) with (180 + (- PI - PI) * (180 * / PI)) by (field; lra).
    apply Rplus_lt_compat_l, Rmult_lt_compat_r; lra.
  - assert ((a - PI) * (180 * / PI) <= 0 * (180 * / PI))
      by (apply Rmult_le_compat_r; lra).
    lra.
Qed.

(** The entry angle of the velocity [-u * vm] at a point of the sphere. *)
Lemma compute_entry_angle_value (u position : vec) (vm Rad : R) :
  norm u = 1 -> 0 < vm -> 0 < Rad -> norm position = Rad ->
  compute_entry_angle (vmul (vneg u) vm) position Rad
  = acos (clip (dot u position / Rad) (-1) 1) * 180 / PI.
Proof.
  intros Hu Hvm HR Hn. unfold compute_entry_angle.
  assert (Hnv : norm (vmul (vneg u) vm) = vm).
  { rewrite norm_vmul, norm_vneg, Hu, Rabs_pos_eq by lra. ring. }
  rewrite Hnv, Hn.
  replace (- dot (vdiv (vmul (vneg u) vm) vm) (vdiv position Rad))
    with (dot u position / Rad)
    by (unfold dot, vdiv, vmul, vneg; simpl; field; lra).
  reflexivity.
Qed.

Lemma clip_id (c : R) : -1 <= c <= 1 -> clip c (-1) 1 = c.
Proof.
  intros Hc. unfold clip, Rmin, Rmax.
  destruct (Rle_dec c (-1)); destruct (Rle_dec _ 1); lra.
Qed.

Lemma simulate_particle_entry (r_min r_max q : R) (g : G) :
  nondegenerate_normal3 (G := G) ->
  let p := fst (simulate_particle r_min r_max q g) in
  -180 < pr_lon p <= 180 /\
  -90 <= pr_lat p <= 90 /\
  (R_top <= pr_impact_parameter_b p -> pr_entry_angle p = 90) /\
  (pr_impact_parameter_b p < R_top ->
     pr_entry_angle p
     = acos (- sqrt (R_top ^ 2 - pr_impact_parameter_b p ^ 2) / R_top) * 180 / PI).
Proof.
  intros Hnd. unfold simulate_particle, bind, ret.
  destruct (sample_source g) as [source g1].
  destruct (sample_radius r_min r_max q g1) as [r g2].
  destruct (sample_material source g2) as [material g3].
  destruct (sample_v_inf source g3) as [v_inf g4].
  pose proof (sample_direction_unit source g4 Hnd) as Hu.
  destruct (sample_direction source g4) as [u g5]. cbn [fst] in Hu.
  destruct (sample_perp_unit_vector_spec u g5 Hu) as [Hperp Hbu].
  destruct (sample_perp_unit_vector u g5) as [b_hat g6]. cbn [fst] in Hperp, Hbu.
  destruct (rng_uniform 0 1 g6) as [x g7].
  set (b_mag := sqrt x * (R_top * sqrt (1 + v_esc ^ 2 / v_inf ^ 2))).
  set (vm := sqrt (v_inf ^ 2 + v_esc ^ 2)).
  pose proof R_top_pos as HR.
  assert (Hb0 : 0 <= b_mag).
  { unfold b_mag. apply Rmult_le_pos; [apply sqrt_pos |].
    apply Rmult_le_pos; [lra | apply sqrt_pos]. }
  assert (Hb : dot (scale b_mag b_hat) u = 0)
    by (rewrite dot_scale_l, Hperp; ring).
  assert (Hnb : norm (scale b_mag b_hat) = b_mag)
    by (rewrite norm_scale, Hbu, Rabs_pos_eq by exact Hb0; ring).
  destruct (compute_intersection_point_spec u (scale b_mag b_hat) R_top g7 Hu Hb HR)
    as (position & lat & lon & g8 & E & Hn & Hd & Hlat & Hlon & _ & _ & Hlt & Hge).
  rewrite E, Hnb in *.
  cbn [fst pr_lon pr_lat pr_entry_angle pr_impact_parameter_b].
  assert (Hvm : 0 < vm).
  { pose proof (v_entry_mag_ge_v_esc v_inf). pose proof v_esc_gt_1. unfold vm. lra. }
  rewrite (compute_entry_angle_value u position vm R_top Hu Hvm HR Hn).
  split; [rewrite Hlon; apply degrees_range, atan2_range |].
  split; [rewrite Hlat; apply latitude_defined; assumption |].
  split.
  - intros Hfar. rewrite (Hge Hfar).
    replace (dot u (vmul (vdiv (scale b_mag b_hat) b_mag) R_top) / R_top) with 0.
    + rewrite clip_id by lra. rewrite acos_0. field. pose proof PI_RGT_0; lra.
    + rewrite dot_comm in Hb.
      transitivity (dot u (scale b_mag b_hat) * / b_mag * R_top / R_top);
        [rewrite Hb; unfold Rdiv; ring |].
      unfold dot, vmul, vdiv, scale; simpl. unfold Rdiv. ring.
  - intros Hnear. rewrite (Hlt Hnear).
    set (t := sqrt (R_top ^ 2 - b_mag ^ 2)).
    assert (Ht : 0 <= t <= R_top).
    { split; [apply sqrt_pos |]. unfold t.
      rewrite <- (sqrt_square R_top) at 2 by lra. apply sqrt_le_1_alt. nra. }
    replace (dot u (vadd (vmul (vneg u) t) (scale b_mag b_hat)) / R_top)
      with (- t / R_top).
    + rewrite clip_id; [reflexivity |].
      assert (Hi : 0 < / R_top) by (apply Rinv_0_lt_compat, HR).
      unfold Rdiv. split; [| nra].
      apply Rmult_le_reg_r with R_top; [exact HR |].
      rewrite Rmult_assoc, Rinv_l by lra. lra.
    + rewrite dot_comm in Hb. apply norm_unit_iff in Hu.
      transitivity ((- t * dot u u + dot u (scale b_mag b_hat)) / R_top);
        [rewrite Hu, Hb; unfold Rdiv; ring |].
      unfold dot, vadd, vmul, vneg, scale; simpl. unfold Rdiv. ring.
Qed.

(** X7: in every result of a run the latitude lies in [-90, 90] and the
    longitude in (-180, 180].  The draw of normal(size=3) is taken away from
    the zero vector. *)
Theorem X7_latitude_longitude_ranges (self : Simulator) (N : Z) (r_min r_max q : R) :
  nondegenerate_normal3 (G := G) ->
  exists rs self',
    run_simulation N r_min r_max q self = Ok (rs, self') /\
    results self' = rs /\
    List.length rs = Z.to_nat N /\
    Forall (fun p => -90 <= pr_lat p <= 90 /\ -180 < pr_lon p <= 180) rs.
Proof.
  intros Hnd. apply run_simulation_Forall. intros g.
  destruct (simulate_particle_entry r_min r_max q g Hnd) as (Hlon & Hlat & _).
  split; assumption.
Qed.

(** X8: in every result of a run the entry angle is a function of the impact
    parameter [b]: it is 90 degrees when [b >= R_top], and
    [acos (- sqrt (R_top^2 - b^2) / R_top)] in degrees when [b < R_top].  The
    draw of normal(size=3) is taken away from the zero vector. *)
Theorem X8_entry_angle_from_impact_parameter (self : Simulator) (N : Z)
    (r_min r_max q : R) :
  nondegenerate_normal3 (G := G) ->
  exists rs self',
    run_simulation N r_min r_max q self = Ok (rs, self') /\
    results self' = rs /\
    List.length rs = Z.to_nat N /\
    Forall (fun p =>
              (R_top <= pr_impact_parameter_b p -> pr_entry_angle p = 90) /\
              (pr_impact_parameter_b p < R_top ->
                 pr_entry_angle p
                 = acos (- sqrt (R_top ^ 2 - pr_impact_parameter_b p ^ 2) / R_top)
                   * 180 / PI)) rs.
Proof.
  intros Hnd. apply run_simulation_Forall. intros g.
  destruct (simulate_particle_entry r_min r_max q g Hnd) as (_ & _ & Hfar & Hnear).
  split; assumption.
Qed.

(** X9: for a source other than interstellar, [sample_direction] returns a
    unit vector whose z component has absolute value in [0.5, 1): the
    direction makes an angle of at most 60 degrees with the z axis, on either
    side. *)
Theorem X9_solar_system_direction_band (source : source_family) (g : G) :
  source <> interstellar ->
  norm (fst (sample_direction source g)) = 1 /\
  0.5 <= Rabs (vz (fst (sample_direction source g))) < 1.
Proof.
  intros Hs.
  destruct source; [| | contradiction]; unfold sample_direction, bind, ret.
  all: destruct (rng_uniform 0 (2 * PI) g) as [theta g1];
    pose proof (uniform_range 0.5 1.0 g1 ltac:(lra)) as Hc;
    destruct (rng_uniform 0.5 1.0 g1) as [cos_i g2]; cbn [fst] in Hc;
    destruct (rng_random g2) as [x g3]; cbn [fst];
    destruct (Rlt_dec x 0.5); cbn [vx vy vz];
    [ rewrite (ecliptic_unit theta cos_i (cos_i * -1) Hc) by ring
    | rewrite (ecliptic_unit theta cos_i cos_i Hc) by ring ];
    rewrite vdiv_1; cbn [vz];
    (split; [apply ecliptic_unit; solve [assumption | ring] |]);
    unfold Rabs; destruct (Rcase_abs _); lra.
Qed.

End Sampling.

(** * Further properties of the engine, the diagnostics and the export *)

Section Engine.

Context {G : Type} `{Generator G}.

(** The loop only appends to its accumulator. *)
Lemma simulate_loop_acc (n : nat) (r_min r_max q : R) (acc : list ParticleResult) (g : G) :
  simulate_loop n r_min r_max q acc g
  = (acc ++ fst (simulate_loop n r_min r_max q [] g),
     snd (simulate_loop n r_min r_max q [] g)).
Proof.
  revert acc g. induction n as [| n IH]; intros acc g; simpl.
  - unfold ret; simpl. rewrite app_nil_r. reflexivity.
  - unfold bind. destruct (simulate_particle r_min r_max q g) as [p g'].
    rewrite (IH (acc ++ [p]) g'), (IH [p] g'). simpl.
    rewrite <- app_assoc. reflexivity.
Qed.

Lemma simulate_loop_add (n m : nat) (r_min r_max q : R) (acc : list ParticleResult) (g : G) :
  simulate_loop (n + m) r_min r_max q acc g
  = simulate_loop m r_min r_max q (fst (simulate_loop n r_min r_max q acc g))
                  (snd (simulate_loop n r_min r_max q acc g)).
Proof.
  revert acc g. induction n as [| n IH]; intros acc g; simpl.
  - reflexivity.
  - unfold bind. destruct (simulate_particle r_min r_max q g) as [p g']. apply IH.
Qed.

(** X10: a run of [N] particles followed, on the same simulator, by a run of
    [M] particles returns lists whose concatenation is the list a single run
    of [N + M] particles returns from the starting state, and both ways end
    with the generator in the same state.  The second run replaces the
    stored results by its own list. *)
Theorem X10_consecutive_runs_concatenate (self : Simulator) (N M : Z)
    (r_min r_max q : R) :
  (0 <= N)%Z -> (0 <= M)%Z ->
  exists rs1 self1 rs2 self2 self12,
    run_simulation N r_min r_max q self = Ok (rs1, self1) /\
    run_simulation M r_min r_max q self1 = Ok (rs2, self2) /\
    results self2 = rs2 /\
    run_simulation (N + M) r_min r_max q self = Ok (rs1 ++ rs2, self12) /\
    rng self12 = rng self2.
Proof.
  intros HN HM.
  destruct (simulate_loop (Z.to_nat N) r_min r_max q [] (rng self)) as [rs1 g1] eqn:E1.
  destruct (simulate_loop (Z.to_nat M) r_min r_max q [] g1) as [rs2 g2] eqn:E2.
  exists rs1, (mkSimulator g1 rs1), rs2, (mkSimulator g2 rs2),
    (mkSimulator g2 (rs1 ++ rs2)).
  unfold run_simulation. cbn [rng results].
  rewrite Z2Nat.inj_add by assumption.
  rewrite simulate_loop_add, E1. cbn [fst snd].
  rewrite (simulate_loop_acc (Z.to_nat M) r_min r_max q rs1 g1), E2. cbn [fst snd].
  repeat split.
Qed.

(** *** Category counts *)

Section Counts.

Variable A : Type.
Variable eq_dec : forall a b : A, {a = b} + {a <> b}.
Variable name : A -> string.
Hypothesis name_inj : forall a b, name a = name b -> a = b.

Definition count_entries (xs l : list A) : pydict :=
  map (fun x => (name x, PyInt (Z.of_nat (count_occ eq_dec xs x)))) l.

Lemma count_entries_nil (l : list A) : dict_int_sum (count_entries [] l) = 0%Z.
Proof. induction l as [| a l IH]; simpl; [reflexivity | rewrite IH; reflexivity]. Qed.

Lemma count_entries_cons (y : A) (ys l : list A) :
  NoDup l ->
  dict_int_sum (count_entries (y :: ys) l)
  = (dict_int_sum (count_entries ys l) + (if in_dec eq_dec y l then 1 else 0))%Z.
Proof.
  induction 1 as [| a l Ha Hl IH]; [reflexivity |].
  unfold count_entries in *. cbn [map dict_int_sum]. rewrite IH.
  cbn [count_occ].
  destruct (eq_dec y a) as [E | E].
  - subst a. destruct (in_dec eq_dec y l) as [Hin | _]; [contradiction |].
    destruct (in_dec eq_dec y (y :: l)) as [_ | Hn]; [lia | exfalso; apply Hn; left; reflexivity].
  - destruct (in_dec eq_dec y l) as [Hin | Hin];
      destruct (in_dec eq_dec y (a :: l)) as [Hin' | Hin']; try lia.
    + exfalso. apply Hin'. right. exact Hin.
    + destruct Hin' as [E' | Hin']; [congruence | contradiction].
Qed.

Lemma count_entries_sum (xs l : list A) :
  NoDup l -> incl xs l ->
  dict_int_sum (count_entries xs l) = Z.of_nat (List.length xs).
Proof.
  intros Hl. induction xs as [| y ys IH]; intros Hincl.
  - apply count_entries_nil.
  - rewrite count_entries_cons by exact Hl.
    rewrite IH by (intros z Hz; apply Hincl; right; exact Hz).
    destruct (in_dec eq_dec y l) as [_ | Hn].
    + cbn [List.length]. lia.
    + exfalso. apply Hn, Hincl. left. reflexivity.
Qed.

Lemma NoDup_map_name (l : list A) : NoDup l -> NoDup (map name l).
Proof.
  induction 1 as [| a l Ha Hl IH]; simpl; constructor; [| exact IH].
  intros Hin. apply in_map_iff in Hin. destruct Hin as (b & E & Hb).
  apply name_inj in E. subst b. contradiction.
Qed.

(** The counts of a list add up to its length, under distinct keys, and no
    key has the count zero. *)
Lemma counts_spec (xs : list A) :
  dict_int_sum (counts eq_dec name xs) = Z.of_nat (List.length xs) /\
  NoDup (map fst (counts eq_dec name xs)) /\
  Forall (fun kv => exists x, In x xs /\ fst kv = name x /\
                    snd kv = PyInt (Z.of_nat (count_occ eq_dec xs x)) /\
                    (1 <= Z.of_nat (count_occ eq_dec xs x))%Z)
         (counts eq_dec name xs).
Proof.
  split; [| split].
  - apply (count_entries_sum xs (nodup eq_dec xs)).
    + apply NoDup_nodup.
    + intros z Hz. apply nodup_In. exact Hz.
  - unfold counts. rewrite map_map. cbn [fst].
    apply NoDup_map_name, NoDup_nodup.
  - unfold counts. apply Forall_forall. intros kv Hkv.
    apply in_map_iff in Hkv. destruct Hkv as (x & Hx & Hin). subst kv.
    apply nodup_In in Hin. exists x. cbn [fst snd].
    repeat split; try assumption.
    apply (count_occ_In eq_dec) in Hin. lia.
Qed.

End Counts.

Lemma source_name_inj (a b : source_family) : source_name a = source_name b -> a = b.
Proof. destruct a, b; simpl; intros E; try reflexivity; discriminate. Qed.

Lemma material_name_inj (a b : material) : material_name a = material_name b -> a = b.
Proof. destruct a, b; simpl; intros E; try reflexivity; discriminate. Qed.

(** *** Summary statistics *)

Lemma fold_left_Rmin (t : list R) (a : R) :
  fold_left Rmin t a <= a /\
  Forall (fun y => fold_left Rmin t a <= y) t /\
  In (fold_left Rmin t a) (a :: t).
Proof.
  revert a. induction t as [| y t IH]; intros a; simpl.
  - split; [lra |]. split; [constructor | left; reflexivity].
  - destruct (IH (Rmin a y)) as (Hle & Hall & Hin).
    pose proof (Rmin_l a y). pose proof (Rmin_r a y).
    split; [lra |]. split; [constructor; [lra | exact Hall] |].
    destruct Hin as [E | Hin]; [| right; right; exact Hin].
    assert (Hc : Rmin a y = a \/ Rmin a y = y)
      by (unfold Rmin; destruct (Rle_dec a y); auto).
    destruct Hc as [Hc | Hc]; [left | right; left]; rewrite <- E; symmetry; exact Hc.
Qed.

Lemma fold_left_Rmax (t : list R) (a : R) :
  a <= fold_left Rmax t a /\
  Forall (fun y => y <= fold_left Rmax t a) t /\
  In (fold_left Rmax t a) (a :: t).
Proof.
  revert a. induction t as [| y t IH]; intros a; simpl.
  - split; [lra |]. split; [constructor | left; reflexivity].
  - destruct (IH (Rmax a y)) as (Hle & Hall & Hin).
    pose proof (Rmax_l a y). pose proof (Rmax_r a y).
    split; [lra |]. split; [constructor; [lra | exact Hall] |].
    destruct Hin as [E | Hin]; [| right; right; exact Hin].
    assert (Hc : Rmax a y = a \/ Rmax a y = y)
      by (unfold Rmax; destruct (Rle_dec a y); auto).
    destruct Hc as [Hc | Hc]; [left | right; left]; rewrite <- E; symmetry; exact Hc.
Qed.

Lemma list_min_spec (xs : list R) :
  xs <> [] -> In (list_min xs) xs /\ Forall (fun x => list_min xs <= x) xs.
Proof.
  destruct xs as [| a t]; [congruence | intros _]. simpl.
  destruct (fold_left_Rmin t a) as (Hle & Hall & Hin).
  split; [exact Hin | constructor; assumption].
Qed.

Lemma list_max_spec (xs : list R) :
  xs <> [] -> In (list_max xs) xs /\ Forall (fun x => x <= list_max xs) xs.
Proof.
  destruct xs as [| a t]; [congruence | intros _]. simpl.
  destruct (fold_left_Rmax t a) as (Hle & Hall & Hin).
  split; [exact Hin | constructor; assumption].
Qed.

Lemma fold_left_Rplus_bounds (lo hi : R) (xs : list R) (a : R) :
  Forall (fun x => lo <= x <= hi) xs ->
  lo * INR (List.length xs) + a <= fold_left Rplus xs a
    <= hi * INR (List.length xs) + a.
Proof.
  intros Hall. revert a. induction Hall as [| x xs Hx Hxs IH]; intros a.
  - simpl. lra.
  - cbn [fold_left]. specialize (IH (a + x)).
    change (List.length (x :: xs)) with (S (List.length xs)). rewrite S_INR. lra.
Qed.

Lemma mean_bounds (lo hi : R) (xs : list R) :
  xs <> [] -> Forall (fun x => lo <= x <= hi) xs -> lo <= mean xs <= hi.
Proof.
  intros Hne Hall. unfold mean, sum_list.
  pose proof (fold_left_Rplus_bounds lo hi xs 0 Hall) as Hb.
  assert (Hn : 0 < INR (List.length xs)).
  { apply lt_0_INR. destruct xs; [congruence | simpl; lia]. }
  assert (Hi : 0 < / INR (List.length xs)) by (apply Rinv_0_lt_compat, Hn).
  unfold Rdiv. split.
  - apply Rmult_le_reg_r with (INR (List.length xs)); [exact Hn |].
    rewrite Rmult_assoc, Rinv_l by lra. lra.
  - apply Rmult_le_reg_r with (INR (List.length xs)); [exact Hn |].
    rewrite Rmult_assoc, Rinv_l by lra. lra.
Qed.

Lemma insert_sorted_In (x y : R) (l : list R) :
  In y (insert_sorted x l) <-> y = x \/ In y l.
Proof.
  induction l as [| z l IH]; simpl.
  - split; intros [E | E]; auto; contradiction.
  - destruct (Rle_dec x z); simpl; [| rewrite IH]; intuition auto.
Qed.

Lemma insert_sorted_length (x : R) (l : list R) :
  List.length (insert_sorted x l) = S (List.length l).
Proof.
  induction l as [| z l IH]; simpl; [reflexivity |].
  destruct (Rle_dec x z); simpl; [| rewrite IH]; reflexivity.
Qed.

Lemma sort_list_In (y : R) (xs : list R) : In y (sort_list xs) <-> In y xs.
Proof.
  induction xs as [| x xs IH]; simpl; [tauto |].
  rewrite insert_sorted_In, IH. intuition auto.
Qed.

Lemma sort_list_length (xs : list R) : List.length (sort_list xs) = List.length xs.
Proof.
  induction xs as [| x xs IH]; simpl; [reflexivity |].
  rewrite insert_sorted_length, IH. reflexivity.
Qed.

Lemma median_bounds (lo hi : R) (xs : list R) :
  xs <> [] -> Forall (fun x => lo <= x <= hi) xs -> lo <= median xs <= hi.
Proof.
  intros Hne Hall. unfold median.
  assert (Hn : (0 < List.length (sort_list xs))%nat).
  { rewrite sort_list_length. destruct xs; [congruence | simpl; lia]. }
  assert (Hnth : forall i, (i < List.length (sort_list xs))%nat ->
                           lo <= nth i (sort_list xs) 0 <= hi).
  { intros i Hi. rewrite Forall_forall in Hall. apply Hall.
    apply sort_list_In. apply nth_In. exact Hi. }
  set (n := List.length (sort_list xs)) in *.
  assert (H2 : (n / 2 < n)%nat) by (apply Nat.div_lt; lia).
  pose proof (Hnth (n / 2)%nat H2) as Hmid.
  destruct (Nat.even n); [| exact Hmid].
  pose proof (Hnth (n / 2 - 1)%nat ltac:(lia)) as Hlow. lra.
Qed.

Lemma stats_spec (xs : list R) :
  xs <> [] ->
  stats xs = PyDict [("min", PyFloat (list_min xs)); ("max", PyFloat (list_max xs));
                     ("mean", PyFloat (mean xs)); ("median", PyFloat (median xs))]%string /\
  In (list_min xs) xs /\ In (list_max xs) xs /\
  Forall (fun x => list_min xs <= x <= list_max xs) xs /\
  list_min xs <= mean xs <= list_max xs /\
  list_min xs <= median xs <= list_max xs.
Proof.
  intros Hne.
  destruct (list_min_spec xs Hne) as [Hmin_in Hmin].
  destruct (list_max_spec xs Hne) as [Hmax_in Hmax].
  assert (Hall : Forall (fun x => list_min xs <= x <= list_max xs) xs).
  { rewrite Forall_forall in *. intros x Hx. split; [apply Hmin | apply Hmax]; exact Hx. }
  split; [reflexivity |]. split; [exact Hmin_in |]. split; [exact Hmax_in |].
  split; [exact Hall |].
  split; [apply mean_bounds | apply median_bounds]; assumption.
Qed.

(** X11: on a simulator that holds results, [get_diagnostics] returns a
    dictionary (and leaves the simulator as it was) in which
    [total_particles] is the number of results; [source_distribution] and
    [material_distribution] have distinct keys, name only categories that
    occur, each with a count of at least 1, and their counts add up to
    [total_particles]; [em_particles] and [high_energy_particles] lie
    between 0 and [total_particles]. *)
Theorem X11_diagnostics_counts (self : @Simulator G) :
  results self <> [] ->
  exists d sd md em he,
    get_diagnostics self = Ok (d, self) /\
    dict_get "total_particles" d = Some (PyInt (Z.of_nat (List.length (results self)))) /\
    dict_get "source_distribution" d = Some (PyDict sd) /\
    dict_int_sum sd = Z.of_nat (List.length (results self)) /\
    NoDup (map fst sd) /\
    Forall (fun kv => exists p n, In p (results self) /\
                        fst kv = source_name (pr_source_family p) /\
                        snd kv = PyInt n /\ (1 <= n)%Z) sd /\
    dict_get "material_distribution" d = Some (PyDict md) /\
    dict_int_sum md = Z.of_nat (List.length (results self)) /\
    NoDup (map fst md) /\
    Forall (fun kv => exists p n, In p (results self) /\
                        fst kv = material_name (pr_material p) /\
                        snd kv = PyInt n /\ (1 <= n)%Z) md /\
    dict_get "em_particles" d = Some (PyInt em) /\
    (0 <= em <= Z.of_nat (List.length (results self)))%Z /\
    dict_get "high_energy_particles" d = Some (PyInt he) /\
    (0 <= he <= Z.of_nat (List.length (results self)))%Z.
Proof.
  intros Hne. unfold get_diagnostics.
  destruct (results self) as [| p0 rs0] eqn:E; [congruence |].
  set (rs := p0 :: rs0) in *.
  destruct (counts_spec _ source_eq_dec source_name source_name_inj
              (map pr_source_family rs)) as (Hs1 & Hs2 & Hs3).
  destruct (counts_spec _ material_eq_dec material_name material_name_inj
              (map pr_material rs)) as (Hm1 & Hm2 & Hm3).
  rewrite length_map in Hs1, Hm1.
  eexists _, _, _, _, _.
  split; [reflexivity |]. split; [reflexivity |]. split; [reflexivity |].
  split; [exact Hs1 |]. split; [exact Hs2 |]. split.
  { eapply Forall_impl; [| exact Hs3]. intros kv (x & Hx & Hk & Hv & Hn).
    apply in_map_iff in Hx. destruct Hx as (p & Hp & Hin). subst x.
    exists p. eexists. repeat split; eassumption. }
  split; [reflexivity |]. split; [exact Hm1 |]. split; [exact Hm2 |]. split.
  { eapply Forall_impl; [| exact Hm3]. intros kv (x & Hx & Hk & Hv & Hn).
    apply in_map_iff in Hx. destruct Hx as (p & Hp & Hin). subst x.
    exists p. eexists. repeat split; eassumption. }
  split; [reflexivity |].
  split; [pose proof (filter_length_le pr_em_flag rs); lia |].
  split; [reflexivity |].
  pose proof (filter_length_le pr_high_energy_flag rs); lia.
Qed.

(** X12: on a simulator that holds results, each of the four statistics
    blocks of [get_diagnostics] (of the radius, of [v_inf], of [v_entry], of
    the entry angle) has a [min] and a [max] that are values of results and
    bound the value of every result, and a [mean] and a [median] between
    them. *)
Theorem X12_diagnostics_statistics (self : @Simulator G) :
  results self <> [] ->
  exists d,
    get_diagnostics self = Ok (d, self) /\
    forall key proj,
      In (key, proj) [("size_stats", pr_r); ("v_inf_stats", pr_v_inf);
                      ("v_entry_stats", pr_v_entry);
                      ("entry_angle_stats", pr_entry_angle)]%string ->
      exists lo hi mu med,
        dict_get key d = Some (PyDict [("min", PyFloat lo); ("max", PyFloat hi);
                                       ("mean", PyFloat mu);
                                       ("median", PyFloat med)]%string) /\
        (exists p, In p (results self) /\ proj p = lo) /\
        (exists p, In p (results self) /\ proj p = hi) /\
        Forall (fun p => lo <= proj p <= hi) (results self) /\
        lo <= mu <= hi /\
        lo <= med <= hi.
Proof.
  intros Hne. unfold get_diagnostics.
  destruct (results self) as [| p0 rs0] eqn:E; [congruence |].
  set (rs := p0 :: rs0) in *.
  eexists. split; [reflexivity |].
  assert (Hgen : forall proj : ParticleResult -> R,
    exists lo hi mu med,
      stats (map proj rs) = PyDict [("min", PyFloat lo); ("max", PyFloat hi);
                                    ("mean", PyFloat mu);
                                    ("median", PyFloat med)]%string /\
      (exists p, In p rs /\ proj p = lo) /\
      (exists p, In p rs /\ proj p = hi) /\
      Forall (fun p => lo <= proj p <= hi) rs /\
      lo <= mu <= hi /\ lo <= med <= hi).
  { intros proj.
    destruct (stats_spec (map proj rs) ltac:(discriminate))
      as (Hst & Hmin & Hmax & Hall & Hmean & Hmed).
    exists (list_min (map proj rs)), (list_max (map proj rs)),
      (mean (map proj rs)), (median (map proj rs)).
    split; [exact Hst |].
    apply in_map_iff in Hmin. destruct Hmin as (pmin & Emin & Hpmin).
    apply in_map_iff in Hmax. destruct Hmax as (pmax & Emax & Hpmax).
    split; [exists pmin; split; assumption |].
    split; [exists pmax; split; assumption |].
    split; [| split; assumption].
    rewrite Forall_map in Hall. exact Hall. }
  intros key proj Hin. simpl in Hin.
  destruct Hin as [Hk | [Hk | [Hk | [Hk | []]]]]; injection Hk as <- <-;
    [ destruct (Hgen pr_r) as (lo & hi & mu & med & Hst & Hrest)
    | destruct (Hgen pr_v_inf) as (lo & hi & mu & med & Hst & Hrest)
    | destruct (Hgen pr_v_entry) as (lo & hi & mu & med & Hst & Hrest)
    | destruct (Hgen pr_entry_angle) as (lo & hi & mu & med & Hst & Hrest) ];
    exists lo, hi, mu, med; (split; [| exact Hrest]);
    cbn [dict_get String.eqb Ascii.eqb Bool.eqb]; rewrite Hst; reflexivity.
Qed.


End Engine.

(** ** Closed instances of the further properties *)

(** X1 on a run of two particles with [q = 1]. *)
Lemma X1_witness :
  0 < 0.1e-6 < 1e-3 /\ 1 <= 1 /\
  exists rs self',
    run_simulation 2 0.1e-6 1e-3 1 (init (G := nat) 42) = Ok (rs, self') /\
    results self' = rs /\
    List.length rs = Z.to_nat 2 /\
    Forall (fun p => 0.1e-6 <= pr_r p <= 1e-3) rs.
Proof.
  split; [lra |]. split; [lra |].
  apply (X1_radius_in_range_shallow_exponent (init 42) 2 0.1e-6 1e-3 1); lra.
Defined.



(** X7 on a run of two particles. *)
Lemma X7_witness :
  nondegenerate_normal3 (G := nat) /\
  exists rs self',
    run_simulation 2 0.1e-6 1e-3 3.0 (init (G := nat) 42) = Ok (rs, self') /\
    results self' = rs /\
    List.length rs = Z.to_nat 2 /\
    Forall (fun p => -90 <= pr_lat p <= 90 /\ -180 < pr_lon p <= 180) rs.
Proof.
  split; [exact cyclic_nondegenerate |].
  apply (X7_latitude_longitude_ranges (init 42) 2 0.1e-6 1e-3 3.0).
  exact cyclic_nondegenerate.
Defined.

(** X8 on a run of two particles. *)
Lemma X8_witness :
  nondegenerate_normal3 (G := nat) /\
  exists rs self',
    run_simulation 2 0.1e-6 1e-3 3.0 (init (G := nat) 42) = Ok (rs, self') /\
    results self' = rs /\
    List.length rs = Z.to_nat 2 /\
    Forall (fun p =>
              (R_top <= pr_impact_parameter_b p -> pr_entry_angle p = 90) /\
              (pr_impact_parameter_b p < R_top ->
                 pr_entry_angle p
                 = acos (- sqrt (R_top ^ 2 - pr_impact_parameter_b p ^ 2) / R_top)
                   * 180 / PI)) rs.
Proof.
  split; [exact cyclic_nondegenerate |].
  apply (X8_entry_angle_from_impact_parameter (init 42) 2 0.1e-6 1e-3 3.0).
  exact cyclic_nondegenerate.
Defined.

(** X9 for an asteroidal particle. *)
Lemma X9_witness :
  asteroidal <> interstellar /\
  norm (fst (sample_direction asteroidal 3%nat)) = 1 /\
  0.5 <= Rabs (vz (fst (sample_direction asteroidal 3%nat))) < 1.
Proof.
  split; [discriminate |].
  apply (X9_solar_system_direction_band asteroidal 3%nat). discriminate.
Defined.

(** X10 for runs of two and of three particles. *)
Lemma X10_witness :
  (0 <= 2)%Z /\ (0 <= 3)%Z /\
  exists rs1 self1 rs2 self2 self12,
    run_simulation 2 0.1e-6 1e-3 3.0 (init (G := nat) 42) = Ok (rs1, self1) /\
    run_simulation 3 0.1e-6 1e-3 3.0 self1 = Ok (rs2, self2) /\
    results self2 = rs2 /\
    run_simulation (2 + 3) 0.1e-6 1e-3 3.0 (init 42) = Ok (rs1 ++ rs2, self12) /\
    rng self12 = rng self2.
Proof.
  split; [lia |]. split; [lia |].
  apply (X10_consecutive_runs_concatenate (init 42) 2 3 0.1e-6 1e-3 3.0); lia.
Defined.

Lemma history_not_empty : results seeded_with_history <> [].
Proof. discriminate. Qed.

(** X11 on a simulator that holds one result. *)
Lemma X11_witness :
  results seeded_with_history <> [] /\
  exists d,
    get_diagnostics seeded_with_history = Ok (d, seeded_with_history) /\
    dict_get "total_particles" d = Some (PyInt 1).
Proof.
  split; [exact history_not_empty |].
  destruct (X11_diagnostics_counts seeded_with_history history_not_empty)
    as (d & sd & md & em & he & Hd & Ht & _).
  exists d. split; [exact Hd | exact Ht].
Defined.

(** X12 on a simulator that holds one result. *)
Lemma X12_witness :
  results seeded_with_history <> [] /\
  exists d lo hi mu med,
    get_diagnostics seeded_with_history = Ok (d, seeded_with_history) /\
    dict_get "size_stats" d
      = Some (PyDict [("min", PyFloat lo); ("max", PyFloat hi);
                      ("mean", PyFloat mu); ("median", PyFloat med)]%string) /\
    lo <= mu <= hi /\ lo <= med <= hi.
Proof.
  split; [exact history_not_empty |].
  destruct (X12_diagnostics_statistics seeded_with_history history_not_empty)
    as (d & Hd & Hstats).
  destruct (Hstats "size_stats"%string pr_r ltac:(left; reflexivity))
    as (lo & hi & mu & med & Hget & _ & _ & _ & Hmu & Hmed).
  exists d, lo, hi, mu, med. repeat split; try assumption; apply Hmu || apply Hmed.
Defined.
